(** * Scene playback engine of [src/App.jsx]

    A shallow embedding of the animated preview player: the pure helpers
    ([basePerSceneMs], [currentScene], [getTransitionVariants], [getDelayMs]),
    the [useAutoAdvance] hook with the browser's timer table, the click
    handlers, the [generate] request and the two character renderings.

    JavaScript numbers that hold times are binary64 floats ([float]); the
    cursor [idx] is an integer-valued number and is kept in [Z].

    [step] is the transition of the state, the hook and the timers; [advance]
    puts the render of [App] between the state updates and the commit, so that
    a render that throws takes the page off the screen.  The first [App] of
    the file, the form without a player, is module [First]. *)

From Stdlib Require Import ZArith List String Bool Lia DecimalString.
From Stdlib Require Import Floats.PrimFloat.
Import ListNotations.

Set Warnings "-inexact-float".
Local Open Scope string_scope.
Local Open Scope Z_scope.

(** ** JavaScript values used by the player *)

Module JS.

(** [!x] on a number: zero (of either sign) and NaN are falsy. *)
Definition falsy (x : float) : bool :=
  PrimFloat.eqb x 0%float || negb (PrimFloat.eqb x x).

(** [x || d] where [x] is a number or is absent ([undefined] / [null]). *)
Definition or_num (x : option float) (d : float) : float :=
  match x with
  | Some v => if falsy v then d else v
  | None => d
  end.

(** [x || d] where [x] is a string or is absent; the empty string is falsy. *)
Definition or_str (x : option string) (d : string) : string :=
  match x with
  | Some "" => d
  | Some v => v
  | None => d
  end.

(** [a[i]]: [undefined] outside the array. *)
Definition index {A} (a : list A) (i : Z) : option A :=
  if i <? 0 then None else nth_error a (Z.to_nat i).

(** [a.length] *)
Definition length {A} (a : list A) : Z := Z.of_nat (List.length a).

(** [Object.is] on numbers: bit-for-bit identity. *)
Definition same_num (x y : float) : bool := PrimFloat.Leibniz.eqb x y.

(** Template-literal rendering of a non-negative integer. *)
Definition show_nat (n : nat) : string :=
  DecimalString.NilEmpty.string_of_uint (Nat.to_uint n).

End JS.

(** ** Response of the generation backend *)

Record Character := { ch_id : string; ch_name : string; ch_color : Z }.

Record Environment := { env_id : string; env_name : string }.

Record Appearance :=
  { ap_id : string; ap_emotion : option string; ap_dialogue : option string }.

Record Transition := { type : option string; duration : option float }.

Record Scene := {
  sc_id : string;
  title : string;
  description : string;
  environmentId : string;
  transition : option Transition;
  sc_characters : list Appearance
}.

Record Result := {
  style : string;
  characters : list Character;
  environments : list Environment;
  scenes : list Scene
}.

(** A result held in React state is an object: [ref] is its identity, which
    is all that the dependency comparison of an effect looks at. *)
Record ResultObj := { ref : nat; data : Result }.

(** ** Pure helpers of [App] *)

Definition basePerSceneMs (pacing : string) : float :=
  if (pacing =? "slow")%string then 4000%float
  else if (pacing =? "fast")%string then 1800%float
  else 2800%float.

(** [result?.scenes[idx]] *)
Definition currentScene (result : option ResultObj) (idx : Z) : option Scene :=
  match result with
  | Some r => JS.index (scenes (data r)) idx
  | None => None
  end.

(** [currentScene?.transition?.duration] *)
Definition sceneDuration (cur : option Scene) : option float :=
  match cur with
  | Some sc =>
      match transition sc with
      | Some t => duration t
      | None => None
      end
  | None => None
  end.

(** Values of a motion target: numbers and CSS strings. *)
Inductive Val := Num (x : float) | Css (s : string).

(** One phase of a motion profile: its properties and, for [animate] and
    [exit], the [transition: { duration }] that goes with it. *)
Record Phase := { props : list (string * Val); timing : option float }.

Record Variants := { initial : Phase; animate : Phase; exit : Phase }.

Definition wipe (d : float) : Variants :=
  {| initial := {| props := [("x", Css "100%"); ("opacity", Num 1)]; timing := None |};
     animate := {| props := [("x", Num 0); ("opacity", Num 1)]; timing := Some d |};
     exit := {| props := [("x", Css "-100%"); ("opacity", Num 1)]; timing := Some d |} |}.

Definition pan (d : float) : Variants :=
  {| initial := {| props := [("scale", Num 1.1); ("x", Num 20); ("opacity", Num 0.9)];
                   timing := None |};
     animate := {| props := [("scale", Num 1); ("x", Num 0); ("opacity", Num 1)];
                   timing := Some d |};
     exit := {| props := [("scale", Num 0.98); ("x", Num (-15)); ("opacity", Num 0.9)];
                timing := Some d |} |}.

Definition dolly (d : float) : Variants :=
  {| initial := {| props := [("scale", Num 0.9); ("opacity", Num 0)]; timing := None |};
     animate := {| props := [("scale", Num 1); ("opacity", Num 1)]; timing := Some d |};
     exit := {| props := [("scale", Num 1.05); ("opacity", Num 0)]; timing := Some d |} |}.

Definition fadeThroughBlack (d : float) : Variants :=
  {| initial := {| props := [("opacity", Num 0); ("filter", Css "brightness(0)")];
                   timing := None |};
     animate := {| props := [("opacity", Num 1); ("filter", Css "brightness(1)")];
                   timing := Some d |};
     exit := {| props := [("opacity", Num 0); ("filter", Css "brightness(0)")];
                timing := Some d |} |}.

Definition crossfade (d : float) : Variants :=
  {| initial := {| props := [("opacity", Num 0)]; timing := None |};
     animate := {| props := [("opacity", Num 1)]; timing := Some d |};
     exit := {| props := [("opacity", Num 0)]; timing := Some d |} |}.

(** [getTransitionVariants(t)], closed over the current scene.  [t] is
    [currentScene.transition?.type], absent when the scene has no transition. *)
Definition getTransitionVariants (cur : option Scene) (t : option string) : Variants :=
  let common := JS.or_num (sceneDuration cur) 0.8%float in
  match t with
  | Some s =>
      if (s =? "wipe")%string then wipe common
      else if (s =? "pan")%string then pan common
      else if (s =? "dolly")%string then dolly common
      else if (s =? "fade-through-black")%string then fadeThroughBlack common
      else crossfade common
  | None => crossfade common
  end.

(** [getDelayMs()], closed over the current scene and [basePerSceneMs]. *)
Definition getDelayMs (base : float) (cur : option Scene) : float :=
  match cur with
  | None => 0%float
  | Some _ => (base + JS.or_num (sceneDuration cur) 0.8%float * 1000)%float
  end.

(** ** React state of [App]

    The six [useState] cells that the player and [generate] read or write
    ([text] and [style] only feed the request body and are left out). *)

Record Ui := {
  pacing : string;
  result : option ResultObj;
  loading : bool;
  error : string;
  playing : bool;
  idx : Z
}.

Definition setPacing (v : string) (u : Ui) : Ui :=
  {| pacing := v; result := result u; loading := loading u; error := error u;
     playing := playing u; idx := idx u |}.

Definition setResult (v : option ResultObj) (u : Ui) : Ui :=
  {| pacing := pacing u; result := v; loading := loading u; error := error u;
     playing := playing u; idx := idx u |}.

Definition setLoading (v : bool) (u : Ui) : Ui :=
  {| pacing := pacing u; result := result u; loading := v; error := error u;
     playing := playing u; idx := idx u |}.

Definition setError (v : string) (u : Ui) : Ui :=
  {| pacing := pacing u; result := result u; loading := loading u; error := v;
     playing := playing u; idx := idx u |}.

Definition setPlaying (v : bool) (u : Ui) : Ui :=
  {| pacing := pacing u; result := result u; loading := loading u; error := error u;
     playing := v; idx := idx u |}.

(** [setIdx] with an updater function. *)
Definition setIdx (f : Z -> Z) (u : Ui) : Ui :=
  {| pacing := pacing u; result := result u; loading := loading u; error := error u;
     playing := playing u; idx := f (idx u) |}.

(** [!!result] *)
Definition hasResult (u : Ui) : bool :=
  match result u with Some _ => true | None => false end.

(** The scene shown by a render of state [u], and the delay its
    [getDelayMs] closure computes. *)
Definition sceneOf (u : Ui) : option Scene := currentScene (result u) (idx u).

Definition delayOf (u : Ui) : float :=
  getDelayMs (basePerSceneMs (pacing u)) (sceneOf u).

(** *** Click handlers of the player *)

Definition prev (u : Ui) : Ui := setIdx (fun i => Z.max 0 (i - 1)) u.

Definition next (u : Ui) : Ui :=
  setIdx (fun i =>
            match result u with
            | Some r => Z.min (JS.length (scenes (data r)) - 1) (i + 1)
            | None => 0
            end) u.

Definition play (u : Ui) : Ui := setPlaying true u.

Definition pause (u : Ui) : Ui := setPlaying false u.

Definition resetPlayer (u : Ui) : Ui := setPlaying false (setIdx (fun _ => 0) u).

(** The callback given to [useAutoAdvance].  [seen] is the [result] of the
    render whose effect armed the timer; [i] is the cursor when the update
    is applied. *)
Definition onTick (seen : option ResultObj) (u : Ui) : Ui :=
  match seen with
  | None => setIdx (fun _ => 0) u
  | Some r =>
      if idx u + 1 >=? JS.length (scenes (data r))
      then setPlaying false (setIdx (fun i => i) u)
      else setIdx (fun i => i + 1) u
  end.

(** *** [generate]

    The request is asynchronous: [generate_sent] is the part that runs on the
    click, up to the [await]; [generate_settled] is the rest, run when the
    request has an outcome. *)

(** The outcomes of the request, by the way the [try] block ends.  In a
    response that is not ok, [data] is the parsed body, or [{}] when the body
    is not JSON:
    - [NotOk]: [data.detail] is a string ([Some]), or it is absent or falsy
      ([None]: [undefined], [null], [false], [0], also when [data] is a number,
      a string or a boolean);
    - [NotOkOther]: [data.detail] is truthy and not a string (an array, an
      object, a number, [true]); [text] is what [new Error(data.detail)] keeps
      as its message, [String(data.detail)]: the empty string for [[]],
      "[object Object]" for an object;
    - [Failed]: [fetch] rejected, [res.json()] of an ok response threw, or
      [data] is [null] and reading [data.detail] threw; [message] is the
      message of that error. *)
Inductive Response :=
| Ok (body : Result)
| NotOk (status : nat) (detail : option string)
| NotOkOther (status : nat) (text : string)
| Failed (message : string).

Definition generate_sent (u : Ui) : Ui :=
  resetPlayer (setResult None (setError "" (setLoading true u))).

(** The [try] block after the [await]: the parsed body, or the message of
    the error it throws. *)
Definition attempt (r : Response) : string + Result :=
  match r with
  | Ok body => inr body
  | NotOk status detail =>
      inl (JS.or_str detail ("Request failed: " ++ JS.show_nat status))
  | NotOkOther status text => inl text
  | Failed message => inl message
  end.

Definition generate_settled (r : Response) (fresh : nat) (u : Ui) : Ui :=
  match attempt r with
  | inr body =>
      setLoading false
        (setIdx (fun _ => 0) (setResult (Some {| ref := fresh; data := body |}) u))
  | inl message => setLoading false (setError message u)
  end.

(** ** Timers of the browser *)

Record Timer := { tid : nat; delay : float; seen : option ResultObj }.

Record Timers := { pending : list Timer; nextTimer : nat }.

Definition clearTimeout (id : nat) (b : Timers) : Timers :=
  {| pending := filter (fun t => negb (tid t =? id)%nat) (pending b);
     nextTimer := nextTimer b |}.

Definition setTimeout (ms : float) (closure : option ResultObj) (b : Timers)
  : nat * Timers :=
  (nextTimer b,
   {| pending := pending b ++ [{| tid := nextTimer b; delay := ms; seen := closure |}];
      nextTimer := S (nextTimer b) |}).

(** ** [useAutoAdvance] *)

Record Deps := {
  dep_playing : bool;
  dep_idx : Z;
  dep_result : option nat;
  dep_base : float
}.

(** [[playing, idx, result, basePerSceneMs]] *)
Definition depsOf (u : Ui) : Deps :=
  {| dep_playing := playing u;
     dep_idx := idx u;
     dep_result := option_map ref (result u);
     dep_base := basePerSceneMs (pacing u) |}.

(** React's comparison of two dependency arrays, [Object.is] entry by entry. *)
Definition sameDeps (a b : Deps) : bool :=
  Bool.eqb (dep_playing a) (dep_playing b)
  && (dep_idx a =? dep_idx b)
  && match dep_result a, dep_result b with
     | Some x, Some y => (x =? y)%nat
     | None, None => true
     | _, _ => false
     end
  && JS.same_num (dep_base a) (dep_base b).

(** What the hook keeps between renders: [timerRef.current], whether the
    last run of the effect returned its cleanup function, and the
    dependencies of that run. *)
Record Hook := { timerRef : option nat; cleanup : bool; deps : Deps }.

(** [timerRef.current && clearTimeout(timerRef.current)] *)
Definition clearRef (r : option nat) (b : Timers) : Timers :=
  match r with
  | Some (S n) => clearTimeout (S n) b
  | _ => b
  end.

(** The body of the effect, run for a render of state [u]. *)
Definition effect (u : Ui) (r : option nat) (b : Timers)
  : option nat * bool * Timers :=
  if negb (playing u && hasResult u) then (r, false, b)
  else
    let ms := delayOf u in
    if JS.falsy ms || PrimFloat.leb ms 0%float then (r, false, b)
    else
      let b1 := clearRef r b in
      let (id, b2) := setTimeout ms (result u) b1 in
      (Some id, true, b2).

(** ** The page: state, hook and timers together *)

Record World := { ui : Ui; hook : Hook; timers : Timers; nextRef : nat }.

(** After a render: when a dependency changed, the cleanup of the last run
    (if it returned one) and then the effect. *)
Definition commit (w : World) : World :=
  let d := depsOf (ui w) in
  if sameDeps (deps (hook w)) d then w
  else
    let b0 := if cleanup (hook w) then clearRef (timerRef (hook w)) (timers w)
              else timers w in
    let '(r, c, b) := effect (ui w) (timerRef (hook w)) b0 in
    {| ui := ui w;
       hook := {| timerRef := r; cleanup := c; deps := d |};
       timers := b;
       nextRef := nextRef w |}.

Definition withUi (f : Ui -> Ui) (w : World) : World :=
  {| ui := f (ui w); hook := hook w; timers := timers w; nextRef := nextRef w |}.

Inductive Event :=
| ClickPrev | ClickPlay | ClickPause | ClickNext | ClickReset
| ChangePacing (v : string)
| ClickGenerate
| Settle (r : Response)
| Fire (id : nat).

Definition timerOf (id : nat) (w : World) : option Timer :=
  find (fun t => (tid t =? id)%nat) (pending (timers w)).

(** Which events the page offers: the player's buttons are rendered under
    [result && ...], Play and Pause replace each other, the Generate button is
    [disabled={loading}], a request settles once, a timer fires while it is in
    the timer table. *)
Definition offered (e : Event) (w : World) : bool :=
  match e with
  | ClickPrev | ClickNext | ClickReset => hasResult (ui w)
  | ClickPlay => hasResult (ui w) && negb (playing (ui w))
  | ClickPause => hasResult (ui w) && playing (ui w)
  | ChangePacing _ => true
  | ClickGenerate => negb (loading (ui w))
  | Settle _ => loading (ui w)
  | Fire id => match timerOf id w with Some _ => true | None => false end
  end.

(** The state updates an event makes, before React renders again. *)
Definition handle (e : Event) (w : World) : World :=
  match e with
  | ClickPrev => withUi prev w
  | ClickPlay => withUi play w
  | ClickPause => withUi pause w
  | ClickNext => withUi next w
  | ClickReset => withUi resetPlayer w
  | ChangePacing v => withUi (setPacing v) w
  | ClickGenerate => withUi generate_sent w
  | Settle r =>
      {| ui := generate_settled r (nextRef w) (ui w);
         hook := hook w;
         timers := timers w;
         nextRef := S (nextRef w) |}
  | Fire id =>
      match timerOf id w with
      | Some t =>
          {| ui := onTick (seen t) (ui w);
             hook := hook w;
             timers := {| pending := filter (fun t' => negb (tid t' =? id)%nat)
                                            (pending (timers w));
                          nextTimer := nextTimer (timers w) |};
             nextRef := nextRef w |}
      | None => w
      end
  end.

(** One event on a page whose render succeeds: its state updates are batched
    into one render, and the effect of that render runs before the next event
    is taken.  The render itself comes in with [advance] below; the states
    [run] reaches include every state the page can be seen in. *)
Definition step (w : World) (e : Event) : World :=
  if offered e w then commit (handle e w) else w.

Definition run (w : World) (es : list Event) : World := fold_left step es w.

(** The page once mounted: the first render's effect has run (and returned
    at [if (!enabled) return]). *)
Definition mounted : World :=
  let u := {| pacing := "normal"; result := None; loading := false; error := "";
              playing := false; idx := 0 |} in
  let b := {| pending := []; nextTimer := 1 |} in
  let '(r, c, b') := effect u None b in
  {| ui := u;
     hook := {| timerRef := r; cleanup := c; deps := depsOf u |};
     timers := b';
     nextRef := 0 |}.

Definition reachable (w : World) : Prop := exists es, w = run mounted es.

(** ** Rendering of the characters of a scene

    A render either produces its elements or throws the [TypeError] of a
    property read on [undefined]. *)

Inductive Rendered (A : Type) :=
| Drawn (a : A)
| TypeError.

Arguments Drawn {A} a.
Arguments TypeError {A}.

(** [x && <element>] on an optional string: nothing for an absent or empty one. *)
Definition shown (x : option string) : option string :=
  match x with
  | Some "" => None
  | other => other
  end.

(** [result.characters.find(c => c.id === id)] *)
Definition findCharacter (r : Result) (id : string) : option Character :=
  find (fun c => (ch_id c =? id)%string) (characters r).

(** [result.environments.find(e => e.id === id)] *)
Definition findEnvironment (r : Result) (id : string) : option Environment :=
  find (fun e => (env_id e =? id)%string) (environments r).

(** A card of the cast.  [pc_color] is [base.color] as read from the roster;
    the hue the style derives from it, [(base.color*55)%360], is the browser's
    floating-point arithmetic and is not computed here. *)
Record PlayerCard := {
  pc_name : string;
  pc_color : Z;
  pc_emotion : option string;
  pc_dialogue : option string
}.

(** The callback of [currentScene.characters.map] in the preview player:
    [base.color] and [base.name] are read from the looked-up character as is. *)
Definition playerCard (r : Result) (ch : Appearance) : Rendered PlayerCard :=
  match findCharacter r (ap_id ch) with
  | Some base =>
      Drawn {| pc_name := ch_name base;
               pc_color := ch_color base;
               pc_emotion := shown (ap_emotion ch);
               pc_dialogue := shown (ap_dialogue ch) |}
  | None => TypeError
  end.

Fixpoint playerCast (r : Result) (chs : list Appearance) : Rendered (list PlayerCard) :=
  match chs with
  | [] => Drawn []
  | ch :: rest =>
      match playerCard r ch with
      | TypeError => TypeError
      | Drawn c =>
          match playerCast r rest with
          | TypeError => TypeError
          | Drawn cs => Drawn (c :: cs)
          end
      end
  end.

Record PlayerView := {
  pv_motion : Variants;
  pv_environment : option string;
  pv_transition : option string;
  pv_title : string;
  pv_description : string;
  pv_cast : list PlayerCard
}.

(** The preview player's stage: nothing without a current scene; otherwise the
    scene's card, where [currentScene.transition.type] is read without [?.]. *)
Definition renderPlayer (u : Ui) : Rendered (option PlayerView) :=
  match result u, sceneOf u with
  | Some r, Some sc =>
      match transition sc with
      | None => TypeError
      | Some t =>
          match playerCast (data r) (sc_characters sc) with
          | TypeError => TypeError
          | Drawn cast =>
              Drawn (Some
                {| pv_motion := getTransitionVariants (Some sc) (type t);
                   pv_environment :=
                     option_map env_name (findEnvironment (data r) (environmentId sc));
                   pv_transition := type t;
                   pv_title := title sc;
                   pv_description := description sc;
                   pv_cast := cast |})
          end
      end
  | _, _ => Drawn None
  end.

Record ListCard := {
  lc_name : option string;
  lc_emotion : option string;
  lc_dialogue : option string
}.

(** The callback of [s.characters.map] in the static scene list:
    [result.characters.find(...)?.name]. *)
Definition listCard (r : Result) (ch : Appearance) : ListCard :=
  {| lc_name := option_map ch_name (findCharacter r (ap_id ch));
     lc_emotion := shown (ap_emotion ch);
     lc_dialogue := shown (ap_dialogue ch) |}.

Definition listCast (r : Result) (chs : list Appearance) : list ListCard :=
  map (listCard r) chs.

(** ** The invariant of the page *)

(** A delay the effect arms a timer for: it passed
    [if (!delay || delay <= 0) return]. *)
Definition schedulable (ms : float) : bool :=
  negb (JS.falsy ms || PrimFloat.leb ms 0%float).

(** Timer [t] is the one the hook holds. *)
Definition held (w : World) (t : Timer) : Prop :=
  timerRef (hook w) = Some (tid t)
  /\ (1 <= tid t < nextTimer (timers w))%nat
  /\ cleanup (hook w) = true.

(** Timer [t] was armed for the state [u] shows now. *)
Definition current (u : Ui) (t : Timer) : Prop :=
  seen t = result u /\ delay t = delayOf u /\ schedulable (delay t) = true
  /\ playing u = true /\ hasResult u = true.

Definition armed (w : World) : Prop :=
  pending (timers w) = []
  \/ exists t, pending (timers w) = [t] /\ held w t /\ current (ui w) t.

(** Between a handler and the render's commit the held timer may be stale;
    it is current whenever the commit will skip the effect. *)
Definition armed_before_commit (w : World) : Prop :=
  pending (timers w) = []
  \/ exists t, pending (timers w) = [t] /\ held w t
               /\ (sameDeps (deps (hook w)) (depsOf (ui w)) = true -> current (ui w) t).

Definition in_range (u : Ui) : Prop :=
  forall r, result u = Some r ->
            1 <= JS.length (scenes (data r)) ->
            0 <= idx u <= JS.length (scenes (data r)) - 1.

Definition idle_without_result (u : Ui) : Prop :=
  result u = None -> playing u = false /\ idx u = 0.

Definition loading_clears (u : Ui) : Prop :=
  loading u = true -> result u = None.

Record Inv (w : World) : Prop := {
  inv_deps : deps (hook w) = depsOf (ui w);
  inv_next : (1 <= nextTimer (timers w))%nat;
  inv_armed : armed w;
  inv_idle : idle_without_result (ui w);
  inv_loading : loading_clears (ui w);
  inv_range : in_range (ui w)
}.

(** The timer a commit arms when a dependency changed. *)
Definition rearmed (w : World) : list Timer :=
  if playing (ui w) && hasResult (ui w) && schedulable (delayOf (ui w))
  then [{| tid := nextTimer (timers w); delay := delayOf (ui w);
           seen := result (ui w) |}]
  else [].

(** The scene declares no usable duration: none at all, or a falsy number. *)
Definition durationFalsy (sc : Scene) : bool :=
  match sceneDuration (Some sc) with
  | Some x => JS.falsy x
  | None => true
  end.

(** ** A sample response

    Three scenes with transition durations 0.8 s, 1.2 s and 0.8 s; [stray] is
    the same story with an appearance whose id is not in the roster. *)

Module Sample.

Definition alice : Character := {| ch_id := "c1"; ch_name := "Alice"; ch_color := 3 |}.

Definition forest : Environment := {| env_id := "e1"; env_name := "Quiet forest" |}.

Definition scene (id kind : string) (secs : option float) (cast : list Appearance)
  : Scene :=
  {| sc_id := id;
     title := "Scene " ++ id;
     description := "";
     environmentId := "e1";
     transition := Some {| type := Some kind; duration := secs |};
     sc_characters := cast |}.

Definition here (id : string) : Appearance :=
  {| ap_id := id; ap_emotion := Some "calm"; ap_dialogue := None |}.

Definition story : Result :=
  {| style := "storybook";
     characters := [alice];
     environments := [forest];
     scenes := [scene "s1" "crossfade" (Some 0.8%float) [here "c1"];
                scene "s2" "wipe" (Some 1.2%float) [here "c1"];
                scene "s3" "dolly" (Some 0.8%float) [here "c1"]] |}.

Definition stray : Result :=
  {| style := "storybook";
     characters := [alice];
     environments := [forest];
     scenes := [scene "s1" "crossfade" (Some 0.8%float) [here "c1"; here "c9"]] |}.

(** A scene whose transition declares a duration of zero seconds. *)
Definition still : Scene := scene "s0" "pan" (Some 0%float) [].

(** The page showing [body], paused on its first scene. *)
Definition showing (body : Result) : World :=
  run mounted [ClickGenerate; Settle (Ok body)].

End Sample.

(** ** The static scene list and the roster *)

Record SceneCard := {
  sv_title : string;
  sv_kind : option string;
  sv_seconds : option float;
  sv_description : string;
  sv_environment : string;
  sv_cast : list ListCard
}.

(** The callback of [result.scenes.map] in the static scene list:
    [s.transition.type] and [s.transition.duration] are read without [?.],
    the environment id is printed as it is. *)
Definition sceneCard (r : Result) (s : Scene) : Rendered SceneCard :=
  match transition s with
  | None => TypeError
  | Some t =>
      Drawn {| sv_title := title s;
               sv_kind := type t;
               sv_seconds := duration t;
               sv_description := description s;
               sv_environment := environmentId s;
               sv_cast := listCast r (sc_characters s) |}
  end.

Fixpoint renderSceneList (r : Result) (ss : list Scene) : Rendered (list SceneCard) :=
  match ss with
  | [] => Drawn []
  | s :: rest =>
      match sceneCard r s with
      | TypeError => TypeError
      | Drawn c =>
          match renderSceneList r rest with
          | TypeError => TypeError
          | Drawn cs => Drawn (c :: cs)
          end
      end
  end.

(** ** The first [App] of the file (lines 5-135): the form without a player *)

Module First.

Record Ui := {
  pacing : string;
  result : option Result;
  loading : bool;
  error : string
}.

(** [generate], up to the [await]. *)
Definition generate_sent (u : Ui) : Ui :=
  {| pacing := pacing u; result := None; loading := true; error := "" |}.

(** [generate], from the outcome of the request on. *)
Definition generate_settled (r : Response) (u : Ui) : Ui :=
  match attempt r with
  | inr body =>
      {| pacing := pacing u; result := Some body; loading := false; error := error u |}
  | inl message =>
      {| pacing := pacing u; result := result u; loading := false; error := message |}
  end.

(** The state updates of an event, before the page renders again.  This page
    has the pacing select, the Generate button ([disabled={loading}]) and the
    pending request; every other event of the second page is absent. *)
Definition step (u : Ui) (e : Event) : Ui :=
  match e with
  | ChangePacing v =>
      {| pacing := v; result := result u; loading := loading u; error := error u |}
  | ClickGenerate => if loading u then u else generate_sent u
  | Settle r => if loading u then generate_settled r u else u
  | _ => u
  end.

Definition run (u : Ui) (es : list Event) : Ui := fold_left step es u.

Definition mounted : Ui :=
  {| pacing := "normal"; result := None; loading := false; error := "" |}.

(** The render of this page: below the form it shows the rosters and the
    static scene list of the result, and throws when that list throws. *)
Definition renders (u : Ui) : bool :=
  match result u with
  | None => true
  | Some r =>
      match renderSceneList r (scenes r) with
      | Drawn _ => true
      | TypeError => false
      end
  end.

(** The page on screen with its state, or gone: there is no error boundary,
    so a render that throws makes React unmount the page, for good. *)
Inductive Page :=
| Shown (u : Ui)
| Gone.

(** One event on the page: the state updates, then the render. *)
Definition advance (p : Page) (e : Event) : Page :=
  match p with
  | Gone => Gone
  | Shown u => if renders (step u e) then Shown (step u e) else Gone
  end.

Definition advances (p : Page) (es : list Event) : Page := fold_left advance es p.

Definition opened : Page := Shown mounted.

End First.

(** What the second page shows of the first page's state. *)
Definition formOf (u : Ui) : First.Ui :=
  {| First.pacing := pacing u;
     First.result := option_map data (result u);
     First.loading := loading u;
     First.error := error u |}.

(** ** The page with its render

    [App] renders after every state change, and there is no error boundary:
    when the render throws, React unmounts the page; the cleanup of the effect
    clears the pending timer, the buttons are gone, and the outcome of a
    pending request sets the state of a component that is no more. *)

(** The render of [App] for state [u]: without a result only the form; with
    one, the rosters, the stage of the preview player and the static scene
    list.  It throws when the stage or the list throws. *)
Definition renders (u : Ui) : bool :=
  match result u with
  | None => true
  | Some r =>
      match renderPlayer u, renderSceneList (data r) (scenes (data r)) with
      | Drawn _, Drawn _ => true
      | _, _ => false
      end
  end.

Inductive Page :=
| Shown (w : World)
| Gone.

(** One event on the page: the handler's state updates, the render of the new
    state, and, when that did not throw, the commit with the effect. *)
Definition advance (p : Page) (e : Event) : Page :=
  match p with
  | Gone => Gone
  | Shown w =>
      if offered e w
      then if renders (ui (handle e w)) then Shown (commit (handle e w)) else Gone
      else Shown w
  end.

Definition advances (p : Page) (es : list Event) : Page := fold_left advance es p.

(** The page as it opens. *)
Definition opened : Page := Shown mounted.

(** The states the page can be seen in. *)
Definition onScreen (w : World) : Prop := exists es, advances opened es = Shown w.

(** *** Letting the pending timer fire *)

Definition tick (p : Page) : Page :=
  match p with
  | Shown w =>
      match pending (timers w) with
      | t :: _ => advance p (Fire (tid t))
      | [] => p
      end
  | Gone => Gone
  end.

Fixpoint ticks (n : nat) (p : Page) : Page :=
  match n with
  | O => p
  | S k => ticks k (tick p)
  end.

(** ** More invariants of the page *)

(** The cursor of any installed sequence, empty or not. *)
Definition in_wide_range (u : Ui) : Prop :=
  forall r, result u = Some r ->
            Z.min 0 (JS.length (scenes (data r)) - 1) <= idx u
            <= Z.max 0 (JS.length (scenes (data r)) - 1).

(** The effect would arm a timer for this state. *)
Definition wantsTimer (u : Ui) : bool :=
  playing u && hasResult u && schedulable (delayOf u).

(** While the effect would arm a timer, one is pending. *)
Definition live (w : World) : Prop :=
  wantsTimer (ui w) = true -> pending (timers w) <> [].

(** ** Responses at the edges *)

Module Edge.

(** A response without scenes. *)
Definition empty : Result :=
  {| style := "noir"; characters := []; environments := []; scenes := [] |}.

(** A scene that carries no transition object. *)
Definition bare : Scene :=
  {| sc_id := "s1"; title := "Scene s1"; description := ""; environmentId := "e9";
     transition := None; sc_characters := [Sample.here "c9"] |}.

(** A scene with a transition whose environment id is not in the roster. *)
Definition astray : Scene :=
  {| sc_id := "s2"; title := "Scene s2"; description := ""; environmentId := "e9";
     transition := Some {| type := None; duration := None |};
     sc_characters := [Sample.here "c1"] |}.

Definition patchy : Result :=
  {| style := "noir"; characters := [Sample.alice]; environments := [Sample.forest];
     scenes := [astray; bare] |}.

End Edge.

(** Splits a conjunction of six. *)
Ltac six_parts := split; [|split; [|split; [|split; [|split]]]].

(** * Properties *)

(** ** Numbers and dependency arrays *)

Lemma basePerSceneMs_cases (p : string) :
  basePerSceneMs p = 4000%float \/ basePerSceneMs p = 1800%float
  \/ basePerSceneMs p = 2800%float.
Proof.
  unfold basePerSceneMs.
  destruct (p =? "slow")%string; [now left|].
  destruct (p =? "fast")%string; [now right; left | now right; right].
Qed.

Lemma same_num_base (p q : string) :
  JS.same_num (basePerSceneMs p) (basePerSceneMs q) = true ->
  basePerSceneMs p = basePerSceneMs q.
Proof.
  destruct (basePerSceneMs_cases p) as [-> | [-> | ->]];
    destruct (basePerSceneMs_cases q) as [-> | [-> | ->]];
    vm_compute; congruence.
Qed.

Lemma same_num_base_refl (p : string) :
  JS.same_num (basePerSceneMs p) (basePerSceneMs p) = true.
Proof.
  destruct (basePerSceneMs_cases p) as [-> | [-> | ->]]; reflexivity.
Qed.

Lemma sameDeps_refl (u : Ui) : sameDeps (depsOf u) (depsOf u) = true.
Proof.
  unfold sameDeps, depsOf; simpl.
  rewrite Bool.eqb_reflx, Z.eqb_refl, same_num_base_refl.
  destruct (result u); simpl; [rewrite Nat.eqb_refl|]; reflexivity.
Qed.

Lemma sameDeps_depsOf (u v : Ui) :
  sameDeps (depsOf u) (depsOf v) = true -> depsOf u = depsOf v.
Proof.
  unfold sameDeps, depsOf; simpl; intros H.
  apply andb_prop in H as [H Hb]. apply andb_prop in H as [H Hr].
  apply andb_prop in H as [Hp Hi].
  apply Bool.eqb_prop in Hp. apply Z.eqb_eq in Hi. apply same_num_base in Hb.
  rewrite Hp, Hi, Hb. f_equal.
  destruct (result u), (result v); simpl in *; try discriminate; [|reflexivity].
  apply Nat.eqb_eq in Hr. now rewrite Hr.
Qed.

(** ** The timer table *)

Lemma clearRef_nextTimer (r : option nat) (b : Timers) :
  nextTimer (clearRef r b) = nextTimer b.
Proof. destruct r as [[|n]|]; reflexivity. Qed.

Lemma clearRef_nil (r : option nat) (b : Timers) :
  pending b = [] -> pending (clearRef r b) = [].
Proof. intros H. destruct r as [[|n]|]; simpl; rewrite ?H; reflexivity. Qed.

Lemma clearRef_own (t : Timer) (b : Timers) :
  pending b = [t] -> (1 <= tid t)%nat -> pending (clearRef (Some (tid t)) b) = [].
Proof.
  intros H Hpos. destruct (tid t) as [|n] eqn:E; [lia|].
  simpl. rewrite H. simpl. rewrite E, Nat.eqb_refl. reflexivity.
Qed.

(** ** The commit of a render *)

Lemma commit_ui (w : World) : ui (commit w) = ui w.
Proof.
  unfold commit. destruct (sameDeps _ _); [reflexivity|].
  destruct (effect _ _ _) as [[r c] b]. reflexivity.
Qed.

Lemma commit_deps (w : World) (u0 : Ui) :
  deps (hook w) = depsOf u0 -> deps (hook (commit w)) = depsOf (ui w).
Proof.
  intros H. unfold commit. destruct (sameDeps _ _) eqn:E.
  - rewrite H in *. now apply sameDeps_depsOf.
  - destruct (effect _ _ _) as [[r c] b]. reflexivity.
Qed.

Lemma commit_armed (w : World) :
  (1 <= nextTimer (timers w))%nat ->
  armed_before_commit w ->
  armed (commit w) /\ (1 <= nextTimer (timers (commit w)))%nat.
Proof.
  intros Hn Hpre. unfold commit.
  destruct (sameDeps (deps (hook w)) (depsOf (ui w))) eqn:E.
  - split; [|exact Hn].
    destruct Hpre as [Hnil | (t & Ht & Hheld & Hcur)]; [now left|].
    right. exists t. auto.
  - set (b0 := if cleanup (hook w) then clearRef (timerRef (hook w)) (timers w)
               else timers w).
    assert (Hb0 : pending b0 = [] /\ nextTimer b0 = nextTimer (timers w)).
    { subst b0. destruct Hpre as [Hnil | (t & Ht & (Href & Hid & Hc) & _)].
      - destruct (cleanup (hook w)); [|now split].
        split; [now apply clearRef_nil | apply clearRef_nextTimer].
      - rewrite Hc, Href. split; [apply (clearRef_own t); [exact Ht | lia]
                                 | apply clearRef_nextTimer]. }
    destruct Hb0 as [Hnil Hnext]. clearbody b0.
    unfold effect.
    destruct (playing (ui w) && hasResult (ui w)) eqn:Hen; simpl;
      [|split; [now left | lia]].
    destruct (JS.falsy (delayOf (ui w)) || PrimFloat.leb (delayOf (ui w)) 0) eqn:Hd;
      simpl; [split; [now left | lia]|].
    rewrite (clearRef_nil _ _ Hnil), clearRef_nextTimer. simpl.
    split; [|lia]. right.
    eexists. split; [reflexivity|].
    apply andb_prop in Hen as [Hp Hr].
    unfold held, current, schedulable; simpl. rewrite Hd.
    repeat split; auto; lia.
Qed.

Lemma current_ext (u v : Ui) (t : Timer) :
  result v = result u -> depsOf u = depsOf v -> current u t -> current v t.
Proof.
  intros Hr Hd (Hs & Hdl & Hok & Hp & Hh).
  pose proof (f_equal dep_playing Hd) as Ep.
  pose proof (f_equal dep_idx Hd) as Ei.
  pose proof (f_equal dep_base Hd) as Eb. simpl in Ep, Ei, Eb.
  unfold current, delayOf, sceneOf, hasResult in *.
  rewrite Hr, <- Ep, <- Ei, <- Eb. auto.
Qed.

(** A handler that leaves [result] alone keeps the timer armed for the commit. *)
Lemma armed_withUi (w : World) (f : Ui -> Ui) :
  Inv w ->
  result (f (ui w)) = result (ui w) ->
  armed_before_commit (withUi f w).
Proof.
  intros I Hr. destruct (inv_armed w I) as [Hnil | (t & Ht & Hheld & Hcur)].
  - now left.
  - right. exists t. split; [exact Ht|]. split; [exact Hheld|].
    unfold withUi; simpl. rewrite (inv_deps w I). intros E.
    apply current_ext with (u := ui w); auto using sameDeps_depsOf.
Qed.

Lemma armed_has_result (w : World) (t : Timer) :
  armed w -> In t (pending (timers w)) ->
  pending (timers w) = [t] /\ held w t /\ current (ui w) t.
Proof.
  intros [Hnil | (t' & Ht & Hheld & Hcur)] Hin.
  - rewrite Hnil in Hin. destruct Hin.
  - rewrite Ht in Hin. destruct Hin as [<- | []]. auto.
Qed.

Lemma timerOf_pending (w : World) (id : nat) (t : Timer) :
  timerOf id w = Some t -> In t (pending (timers w)) /\ tid t = id.
Proof.
  unfold timerOf. intros H. apply find_some in H as [Hin Hid].
  apply Nat.eqb_eq in Hid. auto.
Qed.

Lemma in_range_prev (u : Ui) : in_range u -> in_range (prev u).
Proof. unfold in_range, prev; simpl. intros H r Hr HL. specialize (H r Hr HL). lia. Qed.

Lemma in_range_next (u : Ui) : in_range u -> in_range (next u).
Proof.
  unfold in_range, next; simpl. intros H r Hr HL. specialize (H r Hr HL).
  rewrite Hr. lia.
Qed.

Lemma in_range_resetPlayer (u : Ui) : in_range (resetPlayer u).
Proof. unfold in_range, resetPlayer; simpl. intros r _ HL. lia. Qed.

Lemma in_range_onTick (u : Ui) :
  in_range u -> in_range (onTick (result u) u).
Proof.
  unfold in_range, onTick. intros H r Hr HL.
  destruct (result u) as [r0|] eqn:E.
  - destruct (idx u + 1 >=? JS.length (scenes (data r0))) eqn:G; simpl in *;
      rewrite E in Hr; injection Hr as <-; specialize (H r0 eq_refl HL); lia.
  - simpl in Hr. congruence.
Qed.

Lemma onTick_result (s : option ResultObj) (u : Ui) :
  result (onTick s u) = result u.
Proof. unfold onTick. destruct s; [destruct (_ >=? _)|]; reflexivity. Qed.

Lemma onTick_loading (s : option ResultObj) (u : Ui) :
  loading (onTick s u) = loading u.
Proof. unfold onTick. destruct s; [destruct (_ >=? _)|]; reflexivity. Qed.

Lemma hasResult_some (u : Ui) : hasResult u = true -> result u <> None.
Proof. unfold hasResult. destruct (result u); congruence. Qed.

Lemma handle_inv (w : World) (e : Event) :
  Inv w -> offered e w = true ->
  deps (hook (handle e w)) = depsOf (ui w)
  /\ (1 <= nextTimer (timers (handle e w)))%nat
  /\ armed_before_commit (handle e w)
  /\ idle_without_result (ui (handle e w))
  /\ loading_clears (ui (handle e w))
  /\ in_range (ui (handle e w)).
Proof.
  intros I Hoff.
  pose proof (inv_deps w I) as Hd. pose proof (inv_next w I) as Hn.
  pose proof (inv_idle w I) as Hidle. pose proof (inv_loading w I) as Hload.
  pose proof (inv_range w I) as Hrange.
  destruct e; simpl in Hoff; simpl handle.
  - (* Prev *)
    apply hasResult_some in Hoff.
    six_parts; auto; try (apply armed_withUi; auto).
    + intros Hr. contradiction.
    + apply in_range_prev, Hrange.
  - (* Play *)
    apply andb_prop in Hoff as [Hres _]. apply hasResult_some in Hres.
    six_parts; auto; try (apply armed_withUi; auto).
    intros Hr. contradiction.
  - (* Pause *)
    apply andb_prop in Hoff as [Hres _]. apply hasResult_some in Hres.
    six_parts; auto; try (apply armed_withUi; auto).
    intros Hr. contradiction.
  - (* Next *)
    apply hasResult_some in Hoff.
    six_parts; auto; try (apply armed_withUi; auto).
    + intros Hr. contradiction.
    + apply in_range_next, Hrange.
  - (* Reset *)
    six_parts; auto; try (apply armed_withUi; auto).
    + intros _. split; reflexivity.
    + apply in_range_resetPlayer.
  - (* Pacing *)
    six_parts; auto; try (apply armed_withUi; auto).
  - (* Generate, up to the await *)
    six_parts; auto.
    + destruct (inv_armed w I) as [Hnil | (t & Ht & Hheld & Hcur)]; [now left|].
      right. exists t. split; [exact Ht|]. split; [exact Hheld|].
      unfold withUi; simpl. rewrite Hd. intros E. exfalso.
      destruct Hcur as (_ & _ & _ & _ & Hh). unfold hasResult in Hh.
      unfold sameDeps, depsOf in E; simpl in E.
      destruct (result (ui w)); [|discriminate].
      simpl in E. rewrite andb_false_r in E. discriminate.
    + intros _. split; reflexivity.
    + intros _. reflexivity.
    + intros r Hr. discriminate.
  - (* The request settles *)
    assert (Hnone : result (ui w) = None) by auto.
    assert (Hnil : pending (timers w) = []).
    { destruct (inv_armed w I) as [Hnil | (t & _ & _ & Hcur)]; [exact Hnil|].
      destruct Hcur as (_ & _ & _ & _ & Hh). unfold hasResult in Hh.
      rewrite Hnone in Hh. discriminate. }
    destruct (Hidle Hnone) as [Hp Hi].
    six_parts; auto; try (now left).
    + destruct r; simpl; intros Hr; try discriminate; split; assumption.
    + destruct r; simpl; intros Hr; discriminate.
    + destruct r; simpl; intros r' Hr HL; simpl in *; try lia; congruence.
  - (* A timer fires *)
    destruct (timerOf id w) as [t|] eqn:Et; [|discriminate].
    apply timerOf_pending in Et as [Hin Hid].
    destruct (armed_has_result w t (inv_armed w I) Hin) as (Ht & Hheld & Hcur).
    destruct Hcur as (Hs & _ & _ & Hp & Hh).
    simpl. rewrite Hs. apply hasResult_some in Hh.
    pose proof (onTick_result (result (ui w)) (ui w)) as Hres.
    pose proof (onTick_loading (result (ui w)) (ui w)) as Hld.
    six_parts; auto.
    + left. rewrite Ht. simpl. rewrite Hid, Nat.eqb_refl. reflexivity.
    + intros Hr. rewrite Hres in Hr. contradiction.
    + intros Hl. rewrite Hres. rewrite Hld in Hl. auto.
    + apply in_range_onTick, Hrange.
Qed.

Lemma step_inv (w : World) (e : Event) : Inv w -> Inv (step w e).
Proof.
  intros I. unfold step. destruct (offered e w) eqn:Hoff; [|exact I].
  destruct (handle_inv w e I Hoff) as (Hd & Hn & Ha & Hidle & Hload & Hrange).
  destruct (commit_armed _ Hn Ha) as [Harmed Hnext].
  constructor; rewrite ?commit_ui; auto.
  now apply commit_deps with (u0 := ui w).
Qed.

Lemma run_inv (es : list Event) : forall w, Inv w -> Inv (run w es).
Proof.
  induction es as [|e es IH]; intros w I; simpl; [exact I|].
  apply IH, step_inv, I.
Qed.

Lemma mounted_inv : Inv mounted.
Proof.
  constructor; simpl.
  - reflexivity.
  - lia.
  - now left.
  - intros _. split; reflexivity.
  - intros H. discriminate.
  - intros r H. discriminate.
Qed.

Lemma reachable_inv (w : World) : reachable w -> Inv w.
Proof. intros [es ->]. apply run_inv, mounted_inv. Qed.

Lemma reachable_step (w : World) (e : Event) : reachable w -> reachable (step w e).
Proof.
  intros [es ->]. exists (es ++ [e])%list. unfold run. rewrite fold_left_app. reflexivity.
Qed.

Lemma reachable_run (w : World) (es : list Event) : reachable w -> reachable (run w es).
Proof.
  intros [es0 ->]. exists (es0 ++ es)%list. unfold run. rewrite fold_left_app. reflexivity.
Qed.

(** ** Steps *)

Lemma step_offered (w : World) (e : Event) :
  offered e w = true -> step w e = commit (handle e w).
Proof. intros H. unfold step. now rewrite H. Qed.

Lemma step_ui (w : World) (e : Event) :
  offered e w = true -> ui (step w e) = ui (handle e w).
Proof. intros H. rewrite (step_offered _ _ H). apply commit_ui. Qed.

Lemma timer_needs_playing (w : World) :
  Inv w -> playing (ui w) = false -> pending (timers w) = [].
Proof.
  intros I Hp. destruct (inv_armed w I) as [Hnil | (t & _ & _ & Hcur)]; [exact Hnil|].
  destruct Hcur as (_ & _ & _ & Hp' & _). congruence.
Qed.

Lemma timer_needs_result (w : World) :
  Inv w -> result (ui w) = None -> pending (timers w) = [].
Proof.
  intros I Hr. apply timer_needs_playing; [exact I|]. now apply (inv_idle w I).
Qed.

(** ** Generation requests *)

(** C1, as the code has it: a failed [generate()] ends with the message shown
    and [loading] off, and its failure path changes nothing of [result],
    [idx] and [playing]; but the sequence displayed before the click was
    cleared when the request was sent, so after the failure [result] is
    [null], [idx] is 0, [playing] is false and no timer is pending. *)
Theorem C1_failed_generate_leaves_cleared_player
  (w : World) (r : Response) (message : string) :
  reachable w ->
  offered ClickGenerate w = true ->
  attempt r = inl message ->
  let sent := step w ClickGenerate in
  let settled := step sent (Settle r) in
  (result (ui settled) = None /\ idx (ui settled) = 0
   /\ playing (ui settled) = false /\ pending (timers settled) = [])
  /\ (error (ui settled) = message /\ loading (ui settled) = false)
  /\ (result (ui settled) = result (ui sent) /\ idx (ui settled) = idx (ui sent)
      /\ playing (ui settled) = playing (ui sent)).
Proof.
  intros Hreach Hoff Hfail sent settled.
  assert (Hsent : ui sent = generate_sent (ui w)) by (apply step_ui, Hoff).
  assert (Hoff' : offered (Settle r) sent = true) by (simpl; now rewrite Hsent).
  assert (Hset : ui settled
                 = setLoading false (setError message (generate_sent (ui w)))).
  { unfold settled. rewrite (step_ui _ _ Hoff'). simpl.
    unfold generate_settled. now rewrite Hfail, Hsent. }
  assert (I : Inv settled) by (apply reachable_inv; now do 2 apply reachable_step).
  split; [|split].
  - repeat split; try (rewrite Hset; reflexivity).
    apply timer_needs_result; [exact I | now rewrite Hset].
  - rewrite Hset. split; reflexivity.
  - rewrite Hset, Hsent. repeat split; reflexivity.
Qed.

Lemma C1_failed_generate_witness :
  let w := run (Sample.showing Sample.story) [ClickNext; ClickPlay] in
  let settled := step (step w ClickGenerate) (Settle (NotOk 500 None)) in
  result (ui settled) = None /\ error (ui settled) = "Request failed: 500".
Proof.
  assert (Hreach : reachable (run (Sample.showing Sample.story) [ClickNext; ClickPlay])).
  { apply reachable_run. exists [ClickGenerate; Settle (Ok Sample.story)]. reflexivity. }
  destruct (C1_failed_generate_leaves_cleared_player
              _ (NotOk 500 None) "Request failed: 500" Hreach eq_refl eq_refl)
    as [[Hres _] [[Herr _] _]].
  split; [exact Hres | exact Herr].
Defined.

(** C1, as the spec states it, fails: with a story on screen, the cursor on
    the second scene and playback on, a request that fails leaves no
    sequence, the cursor at 0 and playback off. *)
Lemma C1_counterexample :
  let before := run (Sample.showing Sample.story) [ClickNext; ClickPlay] in
  let after := run before [ClickGenerate; Settle (Failed "Failed to fetch")] in
  (result (ui before) = Some {| ref := 0; data := Sample.story |}
   /\ idx (ui before) = 1 /\ playing (ui before) = true)
  /\ (result (ui after) = None /\ idx (ui after) = 0 /\ playing (ui after) = false)
  /\ error (ui after) = "Failed to fetch".
Proof. vm_compute. repeat split; reflexivity. Qed.

(** ** Rendering with a character id that is not in the roster *)

Lemma playerCast_unknown (r : Result) (chs : list Appearance) (ch : Appearance) :
  In ch chs -> findCharacter r (ap_id ch) = None -> playerCast r chs = TypeError.
Proof.
  induction chs as [|c rest IH]; intros Hin Hnone; [destruct Hin|].
  simpl. destruct Hin as [-> | Hin].
  - unfold playerCard. now rewrite Hnone.
  - destruct (playerCard r c); [|reflexivity]. now rewrite (IH Hin Hnone).
Qed.

Lemma listCard_unknown (r : Result) (ch : Appearance) :
  findCharacter r (ap_id ch) = None -> lc_name (listCard r ch) = None.
Proof. intros H. unfold listCard; simpl. now rewrite H. Qed.

Lemma renderPlayer_unknown (u : Ui) (r : ResultObj) (sc : Scene) (ch : Appearance) :
  result u = Some r -> sceneOf u = Some sc ->
  In ch (sc_characters sc) -> findCharacter (data r) (ap_id ch) = None ->
  renderPlayer u = TypeError.
Proof.
  intros Hr Hsc Hin Hnone. unfold renderPlayer. rewrite Hr, Hsc.
  destruct (transition sc); [|reflexivity].
  now rewrite (playerCast_unknown _ _ _ Hin Hnone).
Qed.

(** C2, on the code: with a response whose first scene lists the character
    id "c9", absent from the roster, the lookup gives nothing and the preview
    player's render throws a TypeError (it reads [base.color] of [undefined]);
    the static scene list renders the same appearance with an empty name. *)
Theorem C2_player_render_throws_on_unknown_character :
  let u := ui (Sample.showing Sample.stray) in
  findCharacter Sample.stray "c9" = None
  /\ sceneOf u = Some (Sample.scene "s1" "crossfade" (Some 0.8%float)
                                    [Sample.here "c1"; Sample.here "c9"])
  /\ renderPlayer u = TypeError
  /\ map lc_name (listCast Sample.stray [Sample.here "c1"; Sample.here "c9"])
     = [Some "Alice"; None].
Proof. vm_compute. repeat split; reflexivity. Qed.

(** ** The cursor *)

(** C3: after any finite sequence of events of the page (Prev, Play, Pause,
    Next, Reset, timer ticks, pacing changes, generation requests and their
    outcomes), whenever a sequence of length L >= 1 is installed the cursor
    [idx] lies in [0, L-1]. *)
Theorem C3_cursor_stays_in_range (es : list Event) (r : ResultObj) :
  result (ui (run mounted es)) = Some r ->
  1 <= JS.length (scenes (data r)) ->
  0 <= idx (ui (run mounted es)) <= JS.length (scenes (data r)) - 1.
Proof.
  intros Hr HL. apply (inv_range _ (run_inv es mounted mounted_inv) r Hr HL).
Qed.

Lemma C3_cursor_witness :
  0 <= idx (ui (run mounted [ClickGenerate; Settle (Ok Sample.story); ClickPlay;
                             ClickNext; ClickNext; ClickNext; Fire 3; ClickPrev]))
    <= JS.length (scenes Sample.story) - 1.
Proof.
  apply (C3_cursor_stays_in_range
           [ClickGenerate; Settle (Ok Sample.story); ClickPlay;
            ClickNext; ClickNext; ClickNext; Fire 3; ClickPrev]
           {| ref := 0; data := Sample.story |}).
  - reflexivity.
  - vm_compute. discriminate.
Defined.

(** ** The tick at the last scene *)

Lemma onTick_at_last (r : ResultObj) (u : Ui) :
  idx u = JS.length (scenes (data r)) - 1 ->
  onTick (Some r) u = setPlaying false (setIdx (fun i => i) u).
Proof.
  intros H. unfold onTick.
  replace (idx u + 1 >=? JS.length (scenes (data r))) with true; [reflexivity|].
  symmetry. apply Z.geb_le. lia.
Qed.

(** C4: for a sequence of length L >= 1, a timer that fires while the cursor
    is at L-1 turns [playing] off and leaves the cursor at L-1 (it does not
    go back to 0); no timer is pending afterwards. *)
Theorem C4_tick_at_last_scene_stops (w : World) (id : nat) (r : ResultObj) :
  reachable w ->
  result (ui w) = Some r ->
  1 <= JS.length (scenes (data r)) ->
  idx (ui w) = JS.length (scenes (data r)) - 1 ->
  offered (Fire id) w = true ->
  let w' := step w (Fire id) in
  playing (ui w') = false
  /\ idx (ui w') = JS.length (scenes (data r)) - 1
  /\ pending (timers w') = [].
Proof.
  intros Hreach Hr HL Hidx Hoff w'.
  pose proof (reachable_inv w Hreach) as I.
  assert (Hui : ui w' = setPlaying false (setIdx (fun i => i) (ui w))).
  { unfold w'. rewrite (step_ui _ _ Hoff). simpl in *.
    destruct (timerOf id w) as [t|] eqn:Et; [|discriminate].
    apply timerOf_pending in Et as [Hin _].
    destruct (armed_has_result w t (inv_armed w I) Hin) as (_ & _ & Hs & _).
    simpl. rewrite Hs, Hr. now apply onTick_at_last. }
  assert (I' : Inv w') by (apply reachable_inv; now apply reachable_step).
  rewrite Hui; simpl. repeat split; auto.
  apply timer_needs_playing; [exact I' | now rewrite Hui].
Qed.

Lemma C4_tick_witness :
  let w := run (Sample.showing Sample.story) [ClickNext; ClickNext; ClickPlay] in
  playing (ui (step w (Fire 1))) = false
  /\ idx (ui (step w (Fire 1))) = 2
  /\ pending (timers (step w (Fire 1))) = [].
Proof.
  assert (Hreach : reachable (run (Sample.showing Sample.story)
                                  [ClickNext; ClickNext; ClickPlay])).
  { apply reachable_run. exists [ClickGenerate; Settle (Ok Sample.story)]. reflexivity. }
  apply (C4_tick_at_last_scene_stops _ 1%nat {| ref := 0; data := Sample.story |} Hreach).
  - reflexivity.
  - vm_compute. discriminate.
  - reflexivity.
  - reflexivity.
Defined.

(** ** What a commit does to the timer table *)

Lemma commit_skip (w : World) :
  sameDeps (deps (hook w)) (depsOf (ui w)) = true -> commit w = w.
Proof. intros H. unfold commit. now rewrite H. Qed.

Lemma commit_rearm (w : World) :
  armed_before_commit w ->
  sameDeps (deps (hook w)) (depsOf (ui w)) = false ->
  pending (timers (commit w)) = rearmed w
  /\ (nextTimer (timers w) <= nextTimer (timers (commit w)))%nat.
Proof.
  intros Hpre E. unfold commit, rearmed. rewrite E.
  set (b0 := if cleanup (hook w) then clearRef (timerRef (hook w)) (timers w)
             else timers w).
  assert (Hb0 : pending b0 = [] /\ nextTimer b0 = nextTimer (timers w)).
  { subst b0. destruct Hpre as [Hnil | (t & Ht & (Href & Hid & Hc) & _)].
    - destruct (cleanup (hook w)); [|now split].
      split; [now apply clearRef_nil | apply clearRef_nextTimer].
    - rewrite Hc, Href. split; [apply (clearRef_own t); [exact Ht | lia]
                               | apply clearRef_nextTimer]. }
  destruct Hb0 as [Hnil Hnext]. clearbody b0.
  unfold effect, schedulable.
  destruct (playing (ui w) && hasResult (ui w)); simpl; [|split; [auto | lia]].
  destruct (JS.falsy (delayOf (ui w)) || PrimFloat.leb (delayOf (ui w)) 0);
    simpl; [split; [auto | lia]|].
  rewrite (clearRef_nil _ _ Hnil), clearRef_nextTimer, Hnext. simpl.
  split; [reflexivity | lia].
Qed.

Lemma handle_pending (w : World) (e : Event) (t : Timer) :
  In t (pending (timers (handle e w))) -> In t (pending (timers w)).
Proof.
  destruct e; simpl; auto.
  destruct (timerOf id w); simpl; auto.
  intros H. now apply filter_In in H.
Qed.

Lemma handle_nextTimer (w : World) (e : Event) :
  nextTimer (timers (handle e w)) = nextTimer (timers w).
Proof. destruct e; simpl; auto. destruct (timerOf id w); reflexivity. Qed.

(** Every timer pending after a step was pending before it or is new. *)
Lemma step_pending (w : World) (e : Event) (t : Timer) :
  Inv w ->
  In t (pending (timers (step w e))) ->
  In t (pending (timers w)) \/ tid t = nextTimer (timers w).
Proof.
  intros I Hin. unfold step in Hin.
  destruct (offered e w) eqn:Hoff; [|now left].
  destruct (handle_inv w e I Hoff) as (_ & _ & Ha & _).
  destruct (sameDeps (deps (hook (handle e w))) (depsOf (ui (handle e w)))) eqn:E.
  - rewrite (commit_skip _ E) in Hin. left. now apply handle_pending in Hin.
  - destruct (commit_rearm _ Ha E) as [Hp _]. rewrite Hp in Hin.
    unfold rearmed in Hin. destruct (_ && _); [|destruct Hin].
    destruct Hin as [<- | []]. right. simpl. apply handle_nextTimer.
Qed.

Lemma step_nextTimer (w : World) (e : Event) :
  Inv w -> (nextTimer (timers w) <= nextTimer (timers (step w e)))%nat.
Proof.
  intros I. unfold step. destruct (offered e w) eqn:Hoff; [|lia].
  destruct (handle_inv w e I Hoff) as (_ & _ & Ha & _).
  destruct (sameDeps (deps (hook (handle e w))) (depsOf (ui (handle e w)))) eqn:E.
  - rewrite (commit_skip _ E), handle_nextTimer. lia.
  - destruct (commit_rearm _ Ha E) as [_ Hn]. rewrite handle_nextTimer in Hn. exact Hn.
Qed.

Lemma offered_fire (w : World) (id : nat) :
  offered (Fire id) w = false <->
  forall t, In t (pending (timers w)) -> tid t <> id.
Proof.
  simpl. unfold timerOf. split.
  - intros H t Hin Hid.
    destruct (find _ _) eqn:F; [discriminate|].
    apply (find_none _ _ F) in Hin. simpl in Hin.
    apply Nat.eqb_neq in Hin. contradiction.
  - intros H. destruct (find _ _) as [t|] eqn:F; [|reflexivity].
    apply find_some in F as [Hin Hid]. apply Nat.eqb_eq in Hid.
    now apply H in Hin.
Qed.

(** A timer that was issued and is no longer in the table never fires. *)
Lemma spent_timer_stays_out (es : list Event) :
  forall (w : World) (id : nat),
    Inv w -> (id < nextTimer (timers w))%nat ->
    offered (Fire id) w = false ->
    offered (Fire id) (run w es) = false.
Proof.
  induction es as [|e es IH]; intros w id I Hlt Hout; simpl; [exact Hout|].
  apply IH.
  - now apply step_inv.
  - pose proof (step_nextTimer w e I). lia.
  - apply offered_fire. intros t Hin Hid.
    destruct (step_pending w e t I Hin) as [Hold | Hnew].
    + now apply (proj1 (offered_fire w id) Hout t Hold).
    + lia.
Qed.

(** ** The delay of the scheduled advance *)

Lemma current_scene_exists (u : Ui) (t : Timer) :
  current u t -> exists sc, sceneOf u = Some sc.
Proof.
  intros (_ & Hd & Hok & _). rewrite Hd in Hok. unfold delayOf in Hok.
  destruct (sceneOf u) as [sc|]; [now exists sc|].
  simpl in Hok. discriminate.
Qed.



(** ** Play *)

Lemma pending_before_play (w : World) :
  Inv w -> offered ClickPlay w = true -> pending (timers w) = [].
Proof.
  intros I Hoff. simpl in Hoff. apply andb_prop in Hoff as [_ Hp].
  apply timer_needs_playing; [exact I|]. now destruct (playing (ui w)).
Qed.

(** C6, as the code has it: Play (offered when a sequence is installed and
    playback is off) always turns [playing] on and leaves the cursor where it
    is, also at the last index; no timer was pending before, and afterwards
    exactly one is, with the delay of the delay function, when that delay is
    positive; with an empty sequence the delay is 0 and no timer is
    scheduled. *)
Theorem C6_play_arms_one_timer (w : World) :
  reachable w ->
  offered ClickPlay w = true ->
  let w' := step w ClickPlay in
  playing (ui w') = true
  /\ idx (ui w') = idx (ui w)
  /\ pending (timers w) = []
  /\ pending (timers w')
     = (if schedulable (delayOf (ui w))
        then [{| tid := nextTimer (timers w); delay := delayOf (ui w);
                 seen := result (ui w) |}]
        else [])
  /\ (forall r, result (ui w) = Some r -> scenes (data r) = [] ->
                pending (timers w') = []).
Proof.
  intros Hreach Hoff w'.
  pose proof (reachable_inv w Hreach) as I.
  pose proof (pending_before_play w I Hoff) as Hnil.
  assert (Hui : ui w' = play (ui w)) by (apply step_ui, Hoff).
  assert (Hpend : pending (timers w')
                  = if schedulable (delayOf (ui w))
                    then [{| tid := nextTimer (timers w); delay := delayOf (ui w);
                             seen := result (ui w) |}]
                    else []).
  { unfold w'. rewrite (step_offered _ _ Hoff).
    destruct (handle_inv w ClickPlay I Hoff) as (_ & _ & Ha & _).
    simpl in Hoff. apply andb_prop in Hoff as [Hres Hp].
    assert (E : sameDeps (deps (hook (handle ClickPlay w)))
                         (depsOf (ui (handle ClickPlay w))) = false).
    { simpl. rewrite (inv_deps w I). unfold sameDeps, depsOf; simpl.
      destruct (playing (ui w)); [discriminate | reflexivity]. }
    destruct (commit_rearm _ Ha E) as [Hp' _]. rewrite Hp'.
    change (rearmed (handle ClickPlay w))
      with (if true && hasResult (ui w) && schedulable (delayOf (ui w))
            then [{| tid := nextTimer (timers w); delay := delayOf (ui w);
                     seen := result (ui w) |}]
            else []).
    rewrite Hres. reflexivity. }
  repeat split; auto; try (rewrite Hui; reflexivity).
  intros r Hr Hempty. rewrite Hpend.
  unfold delayOf, sceneOf, currentScene. rewrite Hr, Hempty.
  unfold JS.index. destruct (idx (ui w) <? 0); [reflexivity|].
  destruct (Z.to_nat (idx (ui w))); reflexivity.
Qed.

Lemma C6_play_witness :
  let w := run (Sample.showing Sample.story) [ClickNext; ClickNext] in
  playing (ui (step w ClickPlay)) = true
  /\ idx (ui (step w ClickPlay)) = 2
  /\ pending (timers w) = []
  /\ pending (timers (step w ClickPlay))
     = [{| tid := 1; delay := 3600%float;
           seen := Some {| ref := 0; data := Sample.story |} |}].
Proof.
  assert (Hreach : reachable (run (Sample.showing Sample.story) [ClickNext; ClickNext])).
  { apply reachable_run. exists [ClickGenerate; Settle (Ok Sample.story)]. reflexivity. }
  destruct (C6_play_arms_one_timer _ Hreach eq_refl) as (Hp & Hi & Hn & Hpend & _).
  repeat split; assumption.
Defined.

(** C6, as the spec states it, fails: with the cursor on the last of three
    scenes and playback off, Play is not rejected; it turns [playing] on and
    schedules a timer of 3600 ms. *)
Lemma C6_counterexample :
  let w := run (Sample.showing Sample.story) [ClickNext; ClickNext] in
  let w' := step w ClickPlay in
  (idx (ui w) = JS.length (scenes Sample.story) - 1 /\ playing (ui w) = false
   /\ pending (timers w) = [])
  /\ (playing (ui w') = true /\ map delay (pending (timers w')) = [3600%float]).
Proof. vm_compute. repeat split; reflexivity. Qed.

(** ** One timer at a time *)

Lemma armed_length (w : World) : armed w -> (List.length (pending (timers w)) <= 1)%nat.
Proof. intros [-> | (t & -> & _)]; simpl; lia. Qed.

(** C7: after any sequence of events at most one timer is pending; Play
    followed by Next, Next, Prev leaves exactly one; and a timer that was
    issued and is no longer pending (cancelled or fired) is never offered to
    fire again, whatever happens next. *)
Theorem C7_at_most_one_pending_timer (es more : list Event) (id : nat) :
  let w := run mounted es in
  (List.length (pending (timers w)) <= 1)%nat
  /\ List.length (pending (timers (run (Sample.showing Sample.story)
                                       [ClickPlay; ClickNext; ClickNext; ClickPrev])))
     = 1%nat
  /\ ((id < nextTimer (timers w))%nat ->
      offered (Fire id) w = false ->
      offered (Fire id) (run w more) = false).
Proof.
  intros w. pose proof (run_inv es mounted mounted_inv) as I. fold w in I.
  split; [|split].
  - apply armed_length, (inv_armed w I).
  - reflexivity.
  - intros Hlt Hout. now apply spent_timer_stays_out.
Qed.

Lemma C7_cancelled_timer_witness :
  offered (Fire 1)
          (run (run mounted [ClickGenerate; Settle (Ok Sample.story); ClickPlay; ClickNext])
               [ClickNext; ClickPrev; ClickPause; ClickPlay])
  = false.
Proof.
  apply (C7_at_most_one_pending_timer
           [ClickGenerate; Settle (Ok Sample.story); ClickPlay; ClickNext]
           [ClickNext; ClickPrev; ClickPause; ClickPlay] 1).
  - vm_compute. lia.
  - reflexivity.
Defined.

(** ** The page with its render *)

Lemma renders_ext (u v : Ui) :
  result u = result v -> idx u = idx v -> renders u = renders v.
Proof.
  intros Hr Hi. unfold renders, renderPlayer, sceneOf. now rewrite Hr, Hi.
Qed.

Lemma advance_step (w : World) (e : Event) :
  offered e w = true -> renders (ui (step w e)) = true ->
  advance (Shown w) e = Shown (step w e).
Proof.
  intros Hoff Hr. rewrite (step_ui _ _ Hoff) in Hr.
  unfold advance, step. now rewrite Hoff, Hr.
Qed.

Lemma advance_gone (w : World) (e : Event) :
  offered e w = true -> renders (ui (step w e)) = false ->
  advance (Shown w) e = Gone.
Proof.
  intros Hoff Hr. rewrite (step_ui _ _ Hoff) in Hr.
  unfold advance. now rewrite Hoff, Hr.
Qed.

Lemma advance_unchanged (w : World) (e : Event) :
  renders (ui w) = true -> step w e = w -> advance (Shown w) e = Shown w.
Proof.
  intros Hr Hsame. unfold advance. destruct (offered e w) eqn:Hoff; [|reflexivity].
  rewrite <- (step_ui _ _ Hoff), Hsame, Hr.
  unfold step in Hsame. rewrite Hoff in Hsame. now rewrite Hsame.
Qed.

Lemma advances_gone (es : list Event) : advances Gone es = Gone.
Proof. induction es as [|e es IH]; simpl; auto. Qed.

Lemma advance_shown (w w' : World) (e : Event) :
  renders (ui w) = true ->
  advance (Shown w) e = Shown w' ->
  w' = step w e /\ renders (ui w') = true.
Proof.
  intros Hr. unfold advance, step. destruct (offered e w).
  - destruct (renders (ui (handle e w))) eqn:E; [|discriminate].
    intros H. injection H as <-. now rewrite commit_ui.
  - intros H. injection H as <-. auto.
Qed.

Lemma advances_shown (es : list Event) :
  forall w0 w,
    reachable w0 -> renders (ui w0) = true ->
    advances (Shown w0) es = Shown w ->
    reachable w /\ renders (ui w) = true.
Proof.
  induction es as [|e es IH]; intros w0 w Hreach Hr.
  - simpl. intros H. injection H as <-. auto.
  - change (advances (Shown w0) (e :: es))
      with (advances (advance (Shown w0) e) es).
    destruct (advance (Shown w0) e) as [w1|] eqn:E.
    + destruct (advance_shown _ _ _ Hr E) as [-> Hr1].
      apply IH; [now apply reachable_step | exact Hr1].
    + rewrite advances_gone. discriminate.
Qed.

Lemma onScreen_reachable (w : World) : onScreen w -> reachable w.
Proof.
  intros [es H]. apply (advances_shown es mounted w); auto.
  now exists [].
Qed.

Lemma onScreen_renders (w : World) : onScreen w -> renders (ui w) = true.
Proof.
  intros [es H]. apply (advances_shown es mounted w); auto.
  now exists [].
Qed.

Lemma onScreen_advance (w w' : World) (e : Event) :
  onScreen w -> advance (Shown w) e = Shown w' -> onScreen w'.
Proof.
  intros [es H] Ha. exists (es ++ [e])%list.
  unfold advances in *. rewrite fold_left_app, H. exact Ha.
Qed.

Lemma showing_onScreen (body : Result) (es : list Event) :
  advances opened ([ClickGenerate; Settle (Ok body)] ++ es)%list
  = Shown (run (Sample.showing body) es) ->
  onScreen (run (Sample.showing body) es).
Proof. intros H. now exists ([ClickGenerate; Settle (Ok body)] ++ es)%list. Qed.

(** ** Manual navigation while playing *)

Lemma setIdx_fixed (f : Z -> Z) (u : Ui) : f (idx u) = idx u -> setIdx f u = u.
Proof. intros H. destruct u. unfold setIdx; simpl in *. now rewrite H. Qed.

Lemma withUi_fixed (f : Ui -> Ui) (w : World) : f (ui w) = ui w -> withUi f w = w.
Proof. intros H. destruct w. unfold withUi; simpl in *. now rewrite H. Qed.

(** What Prev and Next do to the state and the timer table, once the render
    of the new state has succeeded. *)
Lemma navigation_step (w : World) (e : Event) :
  reachable w ->
  e = ClickPrev \/ e = ClickNext ->
  playing (ui w) = true ->
  offered e w = true ->
  let w' := step w e in
  (idx (ui w') <> idx (ui w) ->
   (forall t, In t (pending (timers w)) -> ~ In t (pending (timers w')))
   /\ pending (timers w')
      = (if schedulable (delayOf (ui w'))
         then [{| tid := nextTimer (timers w); delay := delayOf (ui w');
                  seen := result (ui w') |}]
         else []))
  /\ (idx (ui w') = idx (ui w) -> w' = w).
Proof.
  intros Hreach He Hplay Hoff w'.
  pose proof (reachable_inv w Hreach) as I.
  assert (Hres : hasResult (ui w) = true) by (destruct He as [-> | ->]; exact Hoff).
  assert (Hf : exists f, handle e w = withUi (setIdx f) w)
    by (destruct He as [-> | ->]; eexists; reflexivity).
  destruct Hf as [f Hf].
  assert (Hui : ui w' = setIdx f (ui w)).
  { unfold w'. now rewrite (step_ui _ _ Hoff), Hf. }
  split.
  - intros Hmove.
    assert (E : sameDeps (deps (hook (handle e w))) (depsOf (ui (handle e w))) = false).
    { rewrite Hf. unfold withUi; simpl. rewrite (inv_deps w I).
      unfold sameDeps, depsOf; simpl.
      rewrite Hui in Hmove; simpl in Hmove.
      replace (idx (ui w) =? f (idx (ui w))) with false
        by (symmetry; apply Z.eqb_neq; congruence).
      now rewrite andb_false_r. }
    destruct (handle_inv w e I Hoff) as (_ & _ & Ha & _).
    destruct (commit_rearm _ Ha E) as [Hp _].
    assert (Hpend : pending (timers w')
                    = if schedulable (delayOf (ui w'))
                      then [{| tid := nextTimer (timers w); delay := delayOf (ui w');
                               seen := result (ui w') |}]
                      else []).
    { unfold w' at 1. rewrite (step_offered _ _ Hoff), Hp, Hui.
      unfold rearmed. rewrite Hf. unfold withUi; simpl.
      change (hasResult (setIdx f (ui w))) with (hasResult (ui w)).
      now rewrite Hplay, Hres. }
    split; [|exact Hpend].
    intros t Hin Hin'.
    destruct (armed_has_result w t (inv_armed w I) Hin) as (_ & (_ & Hid & _) & _).
    rewrite Hpend in Hin'. destruct (schedulable _); [|destruct Hin'].
    destruct Hin' as [<- | []]. simpl in Hid. lia.
  - intros Hsame. rewrite Hui in Hsame; simpl in Hsame.
    unfold w'. rewrite (step_offered _ _ Hoff), Hf.
    rewrite (withUi_fixed _ _ (setIdx_fixed _ _ Hsame)).
    apply commit_skip. rewrite (inv_deps w I). apply sameDeps_refl.
Qed.

(** C8, as the code has it: Prev or Next clicked while playing, on a page
    that is on screen.  If the click changes the cursor and the page renders
    the new scene, the page stays on screen, the pending timer is cancelled
    and a fresh one is armed for the new scene (when the delay computed for it
    is positive).  When the clamped cursor equals the old one, nothing changes
    at all: the pending timer is kept and goes on running. *)
Theorem C8_navigation_rearms_when_cursor_moves (w : World) (e : Event) :
  onScreen w ->
  e = ClickPrev \/ e = ClickNext ->
  playing (ui w) = true ->
  offered e w = true ->
  let w' := step w e in
  (idx (ui w') <> idx (ui w) ->
   renders (ui w') = true ->
   advance (Shown w) e = Shown w'
   /\ (forall t, In t (pending (timers w)) -> ~ In t (pending (timers w')))
   /\ pending (timers w')
      = (if schedulable (delayOf (ui w'))
         then [{| tid := nextTimer (timers w); delay := delayOf (ui w');
                  seen := result (ui w') |}]
         else []))
  /\ (idx (ui w') = idx (ui w) -> advance (Shown w) e = Shown w /\ w' = w).
Proof.
  intros Hon He Hplay Hoff w'.
  destruct (navigation_step w e (onScreen_reachable w Hon) He Hplay Hoff)
    as [Hmove Hsame].
  fold w' in Hmove, Hsame. split.
  - intros Hne Hr. split; [now apply advance_step|]. now apply Hmove.
  - intros Heq. pose proof (Hsame Heq) as Hw. split; [|exact Hw].
    apply advance_unchanged; [now apply onScreen_renders | exact Hw].
Qed.

Lemma C8_navigation_witness :
  let w := run (Sample.showing Sample.story) [ClickPlay] in
  (advance (Shown w) ClickNext = Shown (step w ClickNext)
   /\ pending (timers (step w ClickNext))
      = [{| tid := 2; delay := 4000%float;
            seen := Some {| ref := 0; data := Sample.story |} |}])
  /\ advance (Shown w) ClickPrev = Shown w.
Proof.
  assert (Hon : onScreen (run (Sample.showing Sample.story) [ClickPlay])).
  { apply showing_onScreen. vm_compute. reflexivity. }
  split.
  - destruct (C8_navigation_rearms_when_cursor_moves
                _ ClickNext Hon (or_intror eq_refl) eq_refl eq_refl) as [Hmove _].
    destruct Hmove as (Ha & _ & Hp);
      [vm_compute; discriminate | vm_compute; reflexivity |].
    split; [exact Ha|]. rewrite Hp. vm_compute. reflexivity.
  - destruct (C8_navigation_rearms_when_cursor_moves
                _ ClickPrev Hon (or_introl eq_refl) eq_refl eq_refl) as [_ Hsame].
    apply Hsame. vm_compute. reflexivity.
Defined.

(** C8, as the spec states it, fails: while playing on the first scene with
    timer 1 pending, Prev leaves the cursor at 0 and the page unchanged;
    timer 1 is still the pending one and no new timer has been issued. *)
Lemma C8_counterexample :
  let w := run (Sample.showing Sample.story) [ClickPlay] in
  let w' := step w ClickPrev in
  (playing (ui w) = true /\ idx (ui w) = 0 /\ map tid (pending (timers w)) = [1%nat]
   /\ nextTimer (timers w) = 2%nat)
  /\ (idx (ui w') = 0 /\ map tid (pending (timers w')) = [1%nat]
      /\ nextTimer (timers w') = 2%nat).
Proof. vm_compute. repeat split; reflexivity. Qed.

(** ** Motion profiles *)




(** ** Zero and absent durations *)

(** C10: a transition duration of 0 is falsy, and for every scene whose
    duration is 0 (or NaN, or absent) the delay is the base plus 800 ms and the
    motion profile animates over 0.8 s, exactly as for any other such scene:
    a zero duration cannot be told from an absent one. *)
Theorem C10_zero_duration_is_default
  (p : string) (sc sc' : Scene) (t : option string) :
  durationFalsy sc = true ->
  durationFalsy sc' = true ->
  JS.falsy 0%float = true
  /\ getDelayMs (basePerSceneMs p) (Some sc) = (basePerSceneMs p + 800)%float
  /\ timing (animate (getTransitionVariants (Some sc) t)) = Some 0.8%float
  /\ timing (exit (getTransitionVariants (Some sc) t)) = Some 0.8%float
  /\ getDelayMs (basePerSceneMs p) (Some sc') = getDelayMs (basePerSceneMs p) (Some sc)
  /\ getTransitionVariants (Some sc') t = getTransitionVariants (Some sc) t.
Proof.
  assert (Hdef : forall s, durationFalsy s = true ->
                           JS.or_num (sceneDuration (Some s)) 0.8%float = 0.8%float).
  { intros s H. unfold durationFalsy in H. unfold JS.or_num.
    destruct (sceneDuration (Some s)); [now rewrite H | reflexivity]. }
  intros H H'. pose proof (Hdef sc H) as E. pose proof (Hdef sc' H') as E'.
  unfold getDelayMs, getTransitionVariants. rewrite E, E'.
  repeat split; try reflexivity;
    destruct t as [s|]; try reflexivity;
    destruct (s =? "wipe")%string; try reflexivity;
    destruct (s =? "pan")%string; try reflexivity;
    destruct (s =? "dolly")%string; try reflexivity;
    destruct (s =? "fade-through-black")%string; reflexivity.
Qed.

Lemma C10_zero_duration_witness :
  getDelayMs (basePerSceneMs "fast") (Some Sample.still) = 2600%float
  /\ timing (animate (getTransitionVariants (Some Sample.still) (Some "pan")))
     = Some 0.8%float.
Proof.
  destruct (C10_zero_duration_is_default
              "fast" Sample.still
              (Sample.scene "s0" "pan" None []) (Some "pan") eq_refl eq_refl)
    as (_ & Hdelay & Hanim & _).
  split; [exact Hdelay | exact Hanim].
Defined.

(** * Further properties of the page *)

(** ** Installing a sequence *)

(** What a request that succeeds does to the state, once the render of the
    new state has succeeded. *)
Lemma install_step (w : World) (body : Result) :
  reachable w ->
  offered ClickGenerate w = true ->
  let sent := step w ClickGenerate in
  let w' := step sent (Settle (Ok body)) in
  (ui sent = generate_sent (ui w) /\ offered (Settle (Ok body)) sent = true)
  /\ option_map data (result (ui w')) = Some body
  /\ idx (ui w') = 0
  /\ sceneOf (ui w') = nth_error (scenes body) 0
  /\ playing (ui w') = false
  /\ loading (ui w') = false
  /\ error (ui w') = ""
  /\ pending (timers w') = [].
Proof.
  intros Hreach Hoff sent w'.
  assert (Hsent : ui sent = generate_sent (ui w)) by (apply step_ui, Hoff).
  assert (Hoff' : offered (Settle (Ok body)) sent = true) by (simpl; now rewrite Hsent).
  assert (Hui : ui w' = generate_settled (Ok body) (nextRef sent) (generate_sent (ui w))).
  { unfold w'. rewrite (step_ui _ _ Hoff'). simpl. now rewrite Hsent. }
  assert (I : Inv w') by (apply reachable_inv; now do 2 apply reachable_step).
  assert (Hnil : pending (timers w') = [])
    by (apply timer_needs_playing; [exact I | now rewrite Hui]).
  clearbody w' sent. rewrite Hui.
  split; [split; assumption|].
  split; [reflexivity|]. split; [reflexivity|]. split; [reflexivity|].
  split; [reflexivity|]. split; [reflexivity|]. split; [reflexivity | exact Hnil].
Qed.

(** X1: a request sent from a page on screen that succeeds with a body the
    page can render installs that body: the page stays on screen, the body is
    the displayed result, the cursor is 0 on its first scene (no scene when
    the body has none), playback is off, loading is off, the error is empty and
    no timer is pending, whatever the page showed when Generate was clicked.
    With a body whose render throws, the page is gone. *)
Theorem successful_generate_installs (w : World) (body : Result) :
  onScreen w ->
  offered ClickGenerate w = true ->
  let w' := step (step w ClickGenerate) (Settle (Ok body)) in
  (renders (ui w') = true ->
   advances (Shown w) [ClickGenerate; Settle (Ok body)] = Shown w'
   /\ option_map data (result (ui w')) = Some body
   /\ idx (ui w') = 0
   /\ sceneOf (ui w') = nth_error (scenes body) 0
   /\ playing (ui w') = false
   /\ loading (ui w') = false
   /\ error (ui w') = ""
   /\ pending (timers w') = [])
  /\ (renders (ui w') = false ->
      advances (Shown w) [ClickGenerate; Settle (Ok body)] = Gone).
Proof.
  intros Hon Hoff w'.
  destruct (install_step w body (onScreen_reachable w Hon) Hoff)
    as ((Hsent & Hoff') & Hprops).
  fold w' in Hprops.
  assert (Hfirst : advance (Shown w) ClickGenerate = Shown (step w ClickGenerate)).
  { apply advance_step; [exact Hoff|]. now rewrite Hsent. }
  change (advances (Shown w) [ClickGenerate; Settle (Ok body)])
    with (advance (advance (Shown w) ClickGenerate) (Settle (Ok body))).
  rewrite Hfirst. split.
  - intros Hr. split; [now apply advance_step | exact Hprops].
  - intros Hr. now apply advance_gone.
Qed.

Lemma successful_generate_witness :
  let w := run (Sample.showing Sample.story) [ClickNext; ClickPlay] in
  let w' := step (step w ClickGenerate) (Settle (Ok Sample.story)) in
  advances (Shown w) [ClickGenerate; Settle (Ok Sample.story)] = Shown w'
  /\ option_map data (result (ui w')) = Some Sample.story
  /\ idx (ui w') = 0.
Proof.
  assert (Hon : onScreen (run (Sample.showing Sample.story) [ClickNext; ClickPlay])).
  { apply showing_onScreen. vm_compute. reflexivity. }
  destruct (successful_generate_installs _ Sample.story Hon eq_refl) as [Hok _].
  destruct Hok as (Ha & Hres & Hidx & _); [vm_compute; reflexivity|].
  split; [exact Ha|]. split; [exact Hres | exact Hidx].
Defined.

(** ** Pause and Reset *)

Lemma held_timer_is_spent_once_cleared (w w' : World) (t : Timer) (es : list Event) :
  Inv w -> Inv w' ->
  In t (pending (timers w)) ->
  (nextTimer (timers w) <= nextTimer (timers w'))%nat ->
  pending (timers w') = [] ->
  offered (Fire (tid t)) (run w' es) = false.
Proof.
  intros I I' Hin Hn Hnil.
  destruct (armed_has_result w t (inv_armed w I) Hin) as (_ & (_ & Hid & _) & _).
  apply spent_timer_stays_out; [exact I' | lia |].
  apply offered_fire. intros t' Hin'. rewrite Hnil in Hin'. destruct Hin'.
Qed.

(** X2: Pause turns playback off and keeps the cursor and the result; the
    pending timer is cancelled for good: it is never offered to fire again,
    whatever events follow. *)
Theorem pause_cancels_the_timer (w : World) (t : Timer) (es : list Event) :
  reachable w ->
  offered ClickPause w = true ->
  let w' := step w ClickPause in
  playing (ui w') = false
  /\ idx (ui w') = idx (ui w)
  /\ result (ui w') = result (ui w)
  /\ pending (timers w') = []
  /\ (In t (pending (timers w)) -> offered (Fire (tid t)) (run w' es) = false).
Proof.
  intros Hreach Hoff w'.
  pose proof (reachable_inv w Hreach) as I.
  assert (I' : Inv w') by (now apply step_inv).
  assert (Hui : ui w' = pause (ui w)) by (apply step_ui, Hoff).
  assert (Hnil : pending (timers w') = [])
    by (apply timer_needs_playing; [exact I' | now rewrite Hui]).
  assert (Hn : (nextTimer (timers w) <= nextTimer (timers w'))%nat)
    by (now apply step_nextTimer).
  clearbody w'. rewrite Hui.
  split; [reflexivity|]. split; [reflexivity|]. split; [reflexivity|].
  split; [exact Hnil|].
  intros Hin. now apply (held_timer_is_spent_once_cleared w w' t es I I' Hin).
Qed.

Lemma pause_cancels_witness :
  let w := run (Sample.showing Sample.story) [ClickPlay; ClickNext] in
  pending (timers (step w ClickPause)) = []
  /\ offered (Fire 2) (run (step w ClickPause) [ClickPlay; ClickPrev; ClickNext]) = false.
Proof.
  assert (Hreach : reachable (run (Sample.showing Sample.story) [ClickPlay; ClickNext])).
  { apply reachable_run. exists [ClickGenerate; Settle (Ok Sample.story)]. reflexivity. }
  destruct (pause_cancels_the_timer
              _ {| tid := 2; delay := 4000%float;
                   seen := Some {| ref := 0; data := Sample.story |} |}
              [ClickPlay; ClickPrev; ClickNext] Hreach eq_refl)
    as (_ & _ & _ & Hnil & Hspent).
  split; [exact Hnil|]. apply Hspent. vm_compute. left. reflexivity.
Defined.

(** X3: Reset returns to the first scene with playback off, keeps the
    installed result, and leaves no timer pending; the timer that was pending
    never fires afterwards. *)
Theorem reset_returns_to_first_scene (w : World) (t : Timer) (es : list Event) :
  reachable w ->
  offered ClickReset w = true ->
  let w' := step w ClickReset in
  idx (ui w') = 0
  /\ playing (ui w') = false
  /\ result (ui w') = result (ui w)
  /\ pending (timers w') = []
  /\ (In t (pending (timers w)) -> offered (Fire (tid t)) (run w' es) = false).
Proof.
  intros Hreach Hoff w'.
  pose proof (reachable_inv w Hreach) as I.
  assert (I' : Inv w') by (now apply step_inv).
  assert (Hui : ui w' = resetPlayer (ui w)) by (apply step_ui, Hoff).
  assert (Hnil : pending (timers w') = [])
    by (apply timer_needs_playing; [exact I' | now rewrite Hui]).
  assert (Hn : (nextTimer (timers w) <= nextTimer (timers w'))%nat)
    by (now apply step_nextTimer).
  clearbody w'. rewrite Hui.
  split; [reflexivity|]. split; [reflexivity|]. split; [reflexivity|].
  split; [exact Hnil|].
  intros Hin. now apply (held_timer_is_spent_once_cleared w w' t es I I' Hin).
Qed.

Lemma reset_witness :
  let w := run (Sample.showing Sample.story) [ClickNext; ClickNext; ClickPlay] in
  idx (ui (step w ClickReset)) = 0
  /\ playing (ui (step w ClickReset)) = false
  /\ offered (Fire 1) (run (step w ClickReset) [ClickPlay; ClickNext]) = false.
Proof.
  assert (Hreach : reachable (run (Sample.showing Sample.story)
                                  [ClickNext; ClickNext; ClickPlay])).
  { apply reachable_run. exists [ClickGenerate; Settle (Ok Sample.story)]. reflexivity. }
  destruct (reset_returns_to_first_scene
              _ {| tid := 1; delay := 3600%float;
                   seen := Some {| ref := 0; data := Sample.story |} |}
              [ClickPlay; ClickNext] Hreach eq_refl)
    as (Hidx & Hplay & _ & _ & Hspent).
  split; [exact Hidx|]. split; [exact Hplay|].
  apply Hspent. vm_compute. left. reflexivity.
Defined.

(** ** The request and its outcome *)




Lemma step_while_loading (w : World) (e : Event) :
  Inv w -> loading (ui w) = true ->
  (forall r, e <> Settle r) ->
  loading (ui (step w e)) = true /\ error (ui (step w e)) = error (ui w).
Proof.
  intros I Hload Hne.
  pose proof (inv_loading w I Hload) as Hnone.
  pose proof (timer_needs_result w I Hnone) as Hnil.
  assert (Hres : hasResult (ui w) = false) by (unfold hasResult; now rewrite Hnone).
  unfold step.
  destruct e; simpl offered; rewrite ?Hres, ?Hload; simpl; auto.
  - rewrite commit_ui. simpl. auto.
  - exfalso. now apply (Hne r).
  - unfold timerOf. rewrite Hnil. simpl. auto.
Qed.

(** X5: while a request is in flight, whatever else happens on the page,
    loading stays on, so Generate stays disabled and a second request cannot
    start; no result is shown, the cursor is 0, playback is off, no timer is
    pending and the error stays as it was. *)
Theorem one_request_in_flight (w : World) (es : list Event) :
  reachable w ->
  loading (ui w) = true ->
  (forall e r, In e es -> e <> Settle r) ->
  let w' := run w es in
  loading (ui w') = true
  /\ offered ClickGenerate w' = false
  /\ result (ui w') = None
  /\ idx (ui w') = 0
  /\ playing (ui w') = false
  /\ pending (timers w') = []
  /\ error (ui w') = error (ui w).
Proof.
  intros Hreach Hload Hes w'.
  assert (H : loading (ui w') = true /\ error (ui w') = error (ui w)).
  { unfold w'. clear w'. revert w Hreach Hload.
    induction es as [|e es IH]; intros w Hreach Hload; simpl; [now split|].
    destruct (step_while_loading w e (reachable_inv w Hreach) Hload) as [Hl He].
    { intros r. apply Hes. now left. }
    destruct (IH (fun e' r Hin => Hes e' r (or_intror Hin)) (step w e)) as [Hl' He'];
      [now apply reachable_step | exact Hl |].
    split; [exact Hl' | congruence]. }
  destruct H as [Hl He].
  assert (I : Inv w') by (apply reachable_inv; now apply reachable_run).
  pose proof (inv_loading w' I Hl) as Hnone.
  destruct (inv_idle w' I Hnone) as [Hp Hi].
  pose proof (timer_needs_result w' I Hnone) as Hnil.
  clearbody w'. simpl. rewrite Hl. repeat split; auto.
Qed.

Lemma one_request_in_flight_witness :
  let w := run (Sample.showing Sample.story) [ClickPlay; ClickGenerate] in
  let w' := run w [ClickGenerate; ClickPlay; ChangePacing "fast"; Fire 1; ClickNext] in
  loading (ui w') = true /\ offered ClickGenerate w' = false /\ result (ui w') = None.
Proof.
  assert (Hreach : reachable (run (Sample.showing Sample.story) [ClickPlay; ClickGenerate])).
  { apply reachable_run. exists [ClickGenerate; Settle (Ok Sample.story)]. reflexivity. }
  assert (Hload : loading (ui (run (Sample.showing Sample.story)
                                   [ClickPlay; ClickGenerate])) = true)
    by (vm_compute; reflexivity).
  destruct (one_request_in_flight
              _ [ClickGenerate; ClickPlay; ChangePacing "fast"; Fire 1; ClickNext]
              Hreach Hload)
    as (Hl & Hg & Hr & _).
  - intros e r Hin.
    repeat (destruct Hin as [<- | Hin]; [discriminate|]). destruct Hin.
  - repeat split; assumption.
Defined.

(** ** Pacing changes during playback *)

Lemma same_num_base_neq (p q : string) :
  basePerSceneMs p <> basePerSceneMs q ->
  JS.same_num (basePerSceneMs p) (basePerSceneMs q) = false.
Proof.
  destruct (basePerSceneMs_cases p) as [-> | [-> | ->]];
    destruct (basePerSceneMs_cases q) as [-> | [-> | ->]];
    intros H; try reflexivity; now contradiction H.
Qed.

Lemma playing_has_result (w : World) :
  Inv w -> playing (ui w) = true -> hasResult (ui w) = true.
Proof.
  intros I Hp. unfold hasResult. destruct (result (ui w)) eqn:E; [reflexivity|].
  destruct (inv_idle w I E) as [Hf _]. congruence.
Qed.

(** X6: changing the pacing while playing keeps the cursor, the result and
    the playing flag.  When the new pacing has another base dwell time, the
    pending timer is replaced by one with the new delay (when that is
    positive); when the base is the same (a value other than slow and fast
    counts as normal) the timer table is left as it is. *)
Theorem pacing_change_rearms_when_base_changes (w : World) (v : string) :
  reachable w ->
  playing (ui w) = true ->
  let w' := step w (ChangePacing v) in
  (pacing (ui w') = v /\ idx (ui w') = idx (ui w)
   /\ playing (ui w') = true /\ result (ui w') = result (ui w))
  /\ (basePerSceneMs v = basePerSceneMs (pacing (ui w)) -> timers w' = timers w)
  /\ (basePerSceneMs v <> basePerSceneMs (pacing (ui w)) ->
      pending (timers w')
      = if schedulable (delayOf (ui w'))
        then [{| tid := nextTimer (timers w); delay := delayOf (ui w');
                 seen := result (ui w') |}]
        else []).
Proof.
  intros Hreach Hplay w'.
  pose proof (reachable_inv w Hreach) as I.
  pose proof (playing_has_result w I Hplay) as Hres.
  assert (Hoff : offered (ChangePacing v) w = true) by reflexivity.
  assert (Hstep : w' = commit (withUi (setPacing v) w)) by (apply step_offered, Hoff).
  assert (Hui : ui w' = setPacing v (ui w)) by (rewrite Hstep; apply commit_ui).
  assert (Hdeps : sameDeps (deps (hook (withUi (setPacing v) w)))
                           (depsOf (ui (withUi (setPacing v) w)))
                  = JS.same_num (basePerSceneMs (pacing (ui w))) (basePerSceneMs v)).
  { unfold withUi; simpl. rewrite (inv_deps w I). unfold sameDeps, depsOf; simpl.
    rewrite Bool.eqb_reflx, Z.eqb_refl.
    destruct (result (ui w)); simpl; [now rewrite Nat.eqb_refl | reflexivity]. }
  clearbody w'. split; [|split].
  - rewrite Hui. simpl. auto.
  - intros Hsame. rewrite Hstep, commit_skip; [reflexivity|].
    rewrite Hdeps, Hsame. apply same_num_base_refl.
  - intros Hdiff.
    destruct (handle_inv w (ChangePacing v) I Hoff) as (_ & _ & Ha & _).
    simpl handle in Ha.
    assert (E : sameDeps (deps (hook (withUi (setPacing v) w)))
                         (depsOf (ui (withUi (setPacing v) w))) = false).
    { rewrite Hdeps. apply same_num_base_neq. congruence. }
    destruct (commit_rearm _ Ha E) as [Hp _].
    rewrite Hstep, Hp, commit_ui. unfold rearmed, withUi; simpl.
    change (hasResult (setPacing v (ui w))) with (hasResult (ui w)).
    now rewrite Hplay, Hres.
Qed.

Lemma pacing_change_witness :
  let w := run (Sample.showing Sample.story) [ClickPlay] in
  pending (timers (step w (ChangePacing "slow")))
  = [{| tid := 2; delay := 4800%float;
        seen := Some {| ref := 0; data := Sample.story |} |}]
  /\ timers (step w (ChangePacing "medium")) = timers w.
Proof.
  assert (Hreach : reachable (run (Sample.showing Sample.story) [ClickPlay])).
  { apply reachable_run. exists [ClickGenerate; Settle (Ok Sample.story)]. reflexivity. }
  assert (Hplay : playing (ui (run (Sample.showing Sample.story) [ClickPlay])) = true)
    by (vm_compute; reflexivity).
  split.
  - destruct (pacing_change_rearms_when_base_changes _ "slow" Hreach Hplay)
      as (_ & _ & Hdiff).
    rewrite Hdiff; [vm_compute; reflexivity | vm_compute; discriminate].
  - destruct (pacing_change_rearms_when_base_changes _ "medium" Hreach Hplay)
      as (_ & Hsame & _).
    apply Hsame. vm_compute. reflexivity.
Defined.

(** ** Ticks before the last scene *)

Lemma fire_ui (w : World) (id : nat) :
  Inv w -> offered (Fire id) w = true ->
  ui (handle (Fire id) w) = onTick (result (ui w)) (ui w)
  /\ nextTimer (timers (handle (Fire id) w)) = nextTimer (timers w)
  /\ playing (ui w) = true
  /\ (id < nextTimer (timers w))%nat.
Proof.
  intros I Hoff. simpl in *.
  destruct (timerOf id w) as [t|] eqn:Et; [|discriminate].
  apply timerOf_pending in Et as [Hin Hid].
  destruct (armed_has_result w t (inv_armed w I) Hin)
    as (_ & (_ & Hlt & _) & Hs & _ & _ & Hp & _).
  simpl. rewrite Hs. repeat split; auto. lia.
Qed.

Lemma onTick_before_last (r : ResultObj) (u : Ui) :
  idx u + 1 < JS.length (scenes (data r)) ->
  onTick (Some r) u = setIdx (fun i => i + 1) u.
Proof.
  intros H. unfold onTick.
  replace (idx u + 1 >=? JS.length (scenes (data r))) with false; [reflexivity|].
  symmetry. rewrite Z.geb_leb. apply Z.leb_gt. lia.
Qed.

(** What a tick before the last scene does to the state and the timer table,
    once the render of the new state has succeeded. *)
Lemma tick_before_last_step (w : World) (id : nat) (r : ResultObj) :
  reachable w ->
  result (ui w) = Some r ->
  idx (ui w) + 1 < JS.length (scenes (data r)) ->
  offered (Fire id) w = true ->
  let w' := step w (Fire id) in
  idx (ui w') = idx (ui w) + 1
  /\ playing (ui w') = true
  /\ result (ui w') = Some r
  /\ pending (timers w')
     = (if schedulable (delayOf (ui w'))
        then [{| tid := nextTimer (timers w); delay := delayOf (ui w');
                 seen := Some r |}]
        else [])
  /\ offered (Fire id) w' = false.
Proof.
  intros Hreach Hr Hlt Hoff w'.
  pose proof (reachable_inv w Hreach) as I.
  destruct (fire_ui w id I Hoff) as (Hh & Hn & Hplay & Hid).
  rewrite Hr, (onTick_before_last r _ Hlt) in Hh.
  assert (Hstep : w' = commit (handle (Fire id) w)) by (apply step_offered, Hoff).
  assert (Hui : ui w' = setIdx (fun i => i + 1) (ui w))
    by (rewrite Hstep, commit_ui; exact Hh).
  destruct (handle_inv w (Fire id) I Hoff) as (Hd & _ & Ha & _).
  assert (E : sameDeps (deps (hook (handle (Fire id) w)))
                       (depsOf (ui (handle (Fire id) w))) = false).
  { rewrite Hd, Hh. unfold sameDeps, depsOf; simpl.
    replace (idx (ui w) =? idx (ui w) + 1) with false
      by (symmetry; apply Z.eqb_neq; lia).
    now rewrite andb_false_r. }
  destruct (commit_rearm _ Ha E) as [Hp _].
  assert (Hpend : pending (timers w')
                  = if schedulable (delayOf (ui w'))
                    then [{| tid := nextTimer (timers w); delay := delayOf (ui w');
                             seen := Some r |}]
                    else []).
  { rewrite Hstep, Hp, commit_ui. unfold rearmed. rewrite Hn, Hh.
    change (hasResult (setIdx (fun i => i + 1) (ui w))) with (hasResult (ui w)).
    change (playing (setIdx (fun i => i + 1) (ui w))) with (playing (ui w)).
    change (result (setIdx (fun i => i + 1) (ui w))) with (result (ui w)).
    unfold hasResult. now rewrite Hplay, Hr. }
  clearbody w'. rewrite Hui at 1 2 3. simpl.
  split; [reflexivity|]. split; [exact Hplay|]. split; [exact Hr|].
  split; [exact Hpend|].
  apply offered_fire. intros t Hin. rewrite Hpend in Hin.
  destruct (schedulable _); [|destruct Hin].
  destruct Hin as [<- | []]. simpl. lia.
Qed.

(** X7: on a page on screen, a timer that fires while the cursor is before
    the last scene moves the cursor one scene on.  When the page renders that
    scene it stays on screen with playback on and the result in place, and
    exactly the timer armed for the new scene is pending (none when the delay
    computed for it is not positive); the timer that fired is gone.  When the
    render of that scene throws, the page is gone. *)
Theorem tick_before_last_advances (w : World) (id : nat) (r : ResultObj) :
  onScreen w ->
  result (ui w) = Some r ->
  idx (ui w) + 1 < JS.length (scenes (data r)) ->
  offered (Fire id) w = true ->
  let w' := step w (Fire id) in
  (renders (ui w') = true ->
   advance (Shown w) (Fire id) = Shown w'
   /\ idx (ui w') = idx (ui w) + 1
   /\ playing (ui w') = true
   /\ result (ui w') = Some r
   /\ pending (timers w')
      = (if schedulable (delayOf (ui w'))
         then [{| tid := nextTimer (timers w); delay := delayOf (ui w');
                  seen := Some r |}]
         else [])
   /\ offered (Fire id) w' = false)
  /\ (renders (ui w') = false -> advance (Shown w) (Fire id) = Gone).
Proof.
  intros Hon Hr Hlt Hoff w'.
  pose proof (tick_before_last_step w id r (onScreen_reachable w Hon) Hr Hlt Hoff)
    as Hprops.
  fold w' in Hprops. split.
  - intros Hrend. split; [now apply advance_step | exact Hprops].
  - intros Hrend. now apply advance_gone.
Qed.

Lemma tick_before_last_witness :
  let w := run (Sample.showing Sample.story) [ClickPlay] in
  advance (Shown w) (Fire 1) = Shown (step w (Fire 1))
  /\ idx (ui (step w (Fire 1))) = 1
  /\ playing (ui (step w (Fire 1))) = true
  /\ pending (timers (step w (Fire 1)))
     = [{| tid := 2; delay := 4000%float;
           seen := Some {| ref := 0; data := Sample.story |} |}].
Proof.
  assert (Hon : onScreen (run (Sample.showing Sample.story) [ClickPlay])).
  { apply showing_onScreen. vm_compute. reflexivity. }
  destruct (tick_before_last_advances
              (run (Sample.showing Sample.story) [ClickPlay]) 1
              {| ref := 0; data := Sample.story |} Hon) as [Hok _];
    try (vm_compute; reflexivity).
  destruct Hok as (Ha & Hidx & Hplay & _ & Hpend & _); [vm_compute; reflexivity|].
  split; [exact Ha|].
  split; [rewrite Hidx; vm_compute; reflexivity|].
  split; [exact Hplay|]. rewrite Hpend. vm_compute. reflexivity.
Defined.

(** ** The timer table of a reachable page *)

Lemma rearmed_wants (w : World) :
  wantsTimer (ui w) = true -> rearmed w <> [].
Proof.
  unfold rearmed, wantsTimer. intros H. rewrite H. discriminate.
Qed.

Lemma wantsTimer_ext (u v : Ui) :
  result v = result u -> depsOf u = depsOf v -> wantsTimer v = wantsTimer u.
Proof.
  intros Hr Hd.
  pose proof (f_equal dep_playing Hd) as Ep.
  pose proof (f_equal dep_idx Hd) as Ei.
  pose proof (f_equal dep_base Hd) as Eb. simpl in Ep, Ei, Eb.
  unfold wantsTimer, delayOf, sceneOf, hasResult.
  now rewrite Hr, <- Ep, <- Ei, <- Eb.
Qed.

Lemma onTick_changes_deps (r : ResultObj) (u : Ui) :
  playing u = true -> depsOf u <> depsOf (onTick (Some r) u).
Proof.
  intros Hp Hd. unfold onTick in Hd.
  destruct (idx u + 1 >=? JS.length (scenes (data r))).
  - apply (f_equal dep_playing) in Hd. simpl in Hd. congruence.
  - apply (f_equal dep_idx) in Hd. simpl in Hd. lia.
Qed.

Lemma step_live (w : World) (e : Event) : Inv w -> live w -> live (step w e).
Proof.
  intros I L. unfold step. destruct (offered e w) eqn:Hoff; [|exact L].
  destruct (handle_inv w e I Hoff) as (Hd & _ & Ha & _).
  destruct (sameDeps (deps (hook (handle e w))) (depsOf (ui (handle e w)))) eqn:E.
  - rewrite (commit_skip _ E). rewrite Hd in E. apply sameDeps_depsOf in E.
    unfold live. intros Hwant.
    assert (Hkeep : forall f, result (f (ui w)) = result (ui w) ->
                              depsOf (ui w) = depsOf (f (ui w)) ->
                              wantsTimer (f (ui w)) = true ->
                              pending (timers w) <> []).
    { intros f Hr Hdeps Hw. apply L. now rewrite <- (wantsTimer_ext _ _ Hr Hdeps). }
    destruct e.
    + exact (Hkeep prev eq_refl E Hwant).
    + exact (Hkeep play eq_refl E Hwant).
    + exact (Hkeep pause eq_refl E Hwant).
    + exact (Hkeep next eq_refl E Hwant).
    + exact (Hkeep resetPlayer eq_refl E Hwant).
    + exact (Hkeep (setPacing v) eq_refl E Hwant).
    + (* the request is sent: playback is off *)
      discriminate Hwant.
    + (* the request settles: playback is off *)
      simpl in Hoff.
      destruct (inv_idle w I (inv_loading w I Hoff)) as [Hp _].
      exfalso. simpl handle in Hwant. simpl in Hwant. unfold wantsTimer, generate_settled in Hwant.
      destruct (attempt r); simpl in Hwant; rewrite Hp in Hwant; discriminate.
    + (* a tick always changes a dependency *)
      exfalso. destruct (fire_ui w id I Hoff) as (Hh & _ & Hp & _).
      rewrite Hh in E.
      pose proof (playing_has_result w I Hp) as Hres. unfold hasResult in Hres.
      destruct (result (ui w)) as [r|] eqn:Er; [|discriminate].
      now apply (onTick_changes_deps r (ui w) Hp).
  - destruct (commit_rearm _ Ha E) as [Hp _].
    unfold live. rewrite Hp, commit_ui. apply rearmed_wants.
Qed.

Lemma reachable_live (w : World) : reachable w -> live w.
Proof.
  intros [es ->].
  assert (H : forall w, Inv w -> live w -> live (run w es)).
  { induction es as [|e es IH]; intros w I L; simpl; [exact L|].
    apply IH; [now apply step_inv | now apply step_live]. }
  apply H; [exact mounted_inv|]. intros Hw. discriminate Hw.
Qed.

(** X8: in every reachable state the timer table is decided by the state on
    screen: when playback is on, a result is installed and the delay of the
    current scene is positive, exactly one timer is pending, armed with that
    delay and with the result on screen in its closure; in every other state
    (paused, no result, no current scene) no timer is pending. *)
Theorem timer_table_follows_the_state (w : World) :
  reachable w ->
  (wantsTimer (ui w) = true ->
   exists t, pending (timers w) = [t]
             /\ delay t = delayOf (ui w)
             /\ seen t = result (ui w)
             /\ timerRef (hook w) = Some (tid t))
  /\ (wantsTimer (ui w) = false -> pending (timers w) = []).
Proof.
  intros Hreach.
  pose proof (reachable_inv w Hreach) as I.
  pose proof (reachable_live w Hreach) as L.
  split.
  - intros Hw. specialize (L Hw).
    destruct (inv_armed w I) as [Hnil | (t & Ht & (Href & _) & Hs & Hd & _)];
      [contradiction|].
    exists t. auto.
  - intros Hw.
    destruct (inv_armed w I) as [Hnil | (t & _ & _ & Hs & Hd & Hok & Hp & Hh)];
      [exact Hnil|].
    exfalso. unfold wantsTimer in Hw. rewrite Hp, Hh, <- Hd, Hok in Hw. discriminate.
Qed.

Lemma timer_table_witness :
  exists t,
    pending (timers (run (Sample.showing Sample.story)
                         [ClickPlay; Fire 1; ClickPause; ClickNext; ClickPlay])) = [t]
    /\ delay t = 3600%float.
Proof.
  assert (Hreach : reachable (run (Sample.showing Sample.story)
                                  [ClickPlay; Fire 1; ClickPause; ClickNext; ClickPlay])).
  { apply reachable_run. exists [ClickGenerate; Settle (Ok Sample.story)]. reflexivity. }
  destruct (timer_table_follows_the_state _ Hreach) as [Hon _].
  destruct Hon as (t & Ht & Hd & _); [vm_compute; reflexivity|].
  exists t. split; [exact Ht|]. rewrite Hd. vm_compute. reflexivity.
Defined.

(** ** Playing a sequence to its end *)

Lemma tick_fires (w : World) :
  reachable w -> wantsTimer (ui w) = true ->
  exists id, tick (Shown w) = advance (Shown w) (Fire id)
             /\ offered (Fire id) w = true.
Proof.
  intros Hreach Hw.
  pose proof (reachable_inv w Hreach) as I.
  pose proof (reachable_live w Hreach Hw) as Hne.
  unfold tick. destruct (pending (timers w)) as [|t rest] eqn:E; [contradiction|].
  exists (tid t). split; [reflexivity|].
  simpl. unfold timerOf. rewrite E. simpl. now rewrite Nat.eqb_refl.
Qed.

Lemma wantsTimer_at (u : Ui) (r : ResultObj) :
  result u = Some r -> playing u = true ->
  schedulable (getDelayMs (basePerSceneMs (pacing u))
                          (JS.index (scenes (data r)) (idx u))) = true ->
  wantsTimer u = true.
Proof.
  intros Hr Hp Hs. unfold wantsTimer, hasResult, delayOf, sceneOf, currentScene.
  now rewrite Hp, Hr, Hs.
Qed.

(** X9: playback runs to the end and stops.  From a page on screen that is
    playing with [n] scenes left after the current one, where each scene from
    the current one on has a positive delay at the current pacing and is one
    the page can render, letting the pending timer fire [n + 1] times leaves
    the page on screen with the cursor on the last scene, playback off, the
    same result and no timer pending. *)
Theorem playback_runs_to_the_last_scene (n : nat) (w : World) (r : ResultObj) :
  onScreen w ->
  result (ui w) = Some r ->
  playing (ui w) = true ->
  idx (ui w) + Z.of_nat n = JS.length (scenes (data r)) - 1 ->
  (forall i, idx (ui w) <= i <= JS.length (scenes (data r)) - 1 ->
             schedulable (getDelayMs (basePerSceneMs (pacing (ui w)))
                                     (JS.index (scenes (data r)) i)) = true) ->
  (forall i, idx (ui w) <= i <= JS.length (scenes (data r)) - 1 ->
             renders (setIdx (fun _ => i) (ui w)) = true) ->
  exists w',
    ticks (S n) (Shown w) = Shown w'
    /\ idx (ui w') = JS.length (scenes (data r)) - 1
    /\ playing (ui w') = false
    /\ result (ui w') = Some r
    /\ pending (timers w') = [].
Proof.
  revert w. induction n as [|n IH]; intros w Hon Hr Hp Hidx Hall Hrend.
  - pose proof (onScreen_reachable w Hon) as Hreach.
    assert (Hw : wantsTimer (ui w) = true)
      by (apply (wantsTimer_at _ r Hr Hp), Hall; lia).
    destruct (tick_fires w Hreach Hw) as (id & Htick & Hoff).
    pose proof (reachable_inv w Hreach) as I.
    destruct (fire_ui w id I Hoff) as (Hh & _).
    assert (Hui : ui (step w (Fire id))
                  = setPlaying false (setIdx (fun i => i) (ui w))).
    { rewrite (step_ui _ _ Hoff), Hh, Hr. apply onTick_at_last. lia. }
    assert (Ha : advance (Shown w) (Fire id) = Shown (step w (Fire id))).
    { apply advance_step; [exact Hoff|]. rewrite Hui.
      rewrite (renders_ext _ (ui w)) by reflexivity. now apply onScreen_renders. }
    assert (I' : Inv (step w (Fire id))) by (now apply step_inv).
    assert (Hnil : pending (timers (step w (Fire id))) = [])
      by (apply timer_needs_playing; [exact I' | now rewrite Hui]).
    exists (step w (Fire id)).
    split; [change (ticks 1 (Shown w)) with (tick (Shown w)); now rewrite Htick|].
    rewrite Hui. simpl. repeat split; auto. lia.
  - pose proof (onScreen_reachable w Hon) as Hreach.
    assert (Hw : wantsTimer (ui w) = true)
      by (apply (wantsTimer_at _ r Hr Hp), Hall; lia).
    destruct (tick_fires w Hreach Hw) as (id & Htick & Hoff).
    pose proof (reachable_inv w Hreach) as I.
    destruct (fire_ui w id I Hoff) as (Hh & _).
    assert (Hui : ui (step w (Fire id)) = setIdx (fun i => i + 1) (ui w)).
    { rewrite (step_ui _ _ Hoff), Hh, Hr. apply onTick_before_last. lia. }
    assert (Ha : advance (Shown w) (Fire id) = Shown (step w (Fire id))).
    { apply advance_step; [exact Hoff|]. rewrite Hui.
      rewrite (renders_ext _ (setIdx (fun _ => idx (ui w) + 1) (ui w)))
        by reflexivity.
      apply Hrend. lia. }
    assert (Hon' : onScreen (step w (Fire id))) by (now apply (onScreen_advance w _ (Fire id))).
    change (ticks (S (S n)) (Shown w)) with (ticks (S n) (tick (Shown w))).
    rewrite Htick, Ha.
    apply IH; auto; rewrite Hui; simpl; auto.
    + lia.
    + intros i Hi. apply Hall. lia.
    + intros i Hi.
      rewrite (renders_ext _ (setIdx (fun _ => i) (ui w))) by reflexivity.
      apply Hrend. lia.
Qed.

Lemma playback_runs_witness :
  let w := run (Sample.showing Sample.story) [ClickPlay] in
  exists w',
    ticks 3 (Shown w) = Shown w'
    /\ idx (ui w') = JS.length (scenes Sample.story) - 1
    /\ playing (ui w') = false.
Proof.
  assert (Hon : onScreen (run (Sample.showing Sample.story) [ClickPlay])).
  { apply showing_onScreen. vm_compute. reflexivity. }
  assert (E0 : idx (ui (run (Sample.showing Sample.story) [ClickPlay])) = 0)
    by (vm_compute; reflexivity).
  assert (E1 : JS.length (scenes (data {| ref := 0; data := Sample.story |})) = 3)
    by (vm_compute; reflexivity).
  destruct (playback_runs_to_the_last_scene
              2 _ {| ref := 0; data := Sample.story |} Hon)
    as (w' & Ht & Hidx & Hplay & _); try (vm_compute; reflexivity).
  - intros i Hi. rewrite E0, E1 in Hi.
    assert (Hc : i = 0 \/ i = 1 \/ i = 2) by lia.
    destruct Hc as [-> | [-> | ->]]; vm_compute; reflexivity.
  - intros i Hi. rewrite E0, E1 in Hi.
    assert (Hc : i = 0 \/ i = 1 \/ i = 2) by lia.
    destruct Hc as [-> | [-> | ->]]; vm_compute; reflexivity.
  - exists w'. split; [exact Ht|]. split; [exact Hidx | exact Hplay].
Defined.

(** ** The cursor of an empty sequence *)

Lemma step_wide_range (w : World) (e : Event) :
  Inv w -> in_wide_range (ui w) -> in_wide_range (ui (step w e)).
Proof.
  intros I W. unfold step. destruct (offered e w) eqn:Hoff; [|exact W].
  rewrite commit_ui. unfold in_wide_range in *.
  destruct e; simpl handle; simpl ui.
  - unfold prev; simpl. intros r Hr. specialize (W r Hr). lia.
  - exact W.
  - exact W.
  - unfold next; simpl. intros r Hr. specialize (W r Hr). rewrite Hr. lia.
  - unfold resetPlayer; simpl. intros r _. lia.
  - exact W.
  - intros r Hr. discriminate Hr.
  - unfold generate_settled. destruct (attempt r); simpl; [exact W|].
    intros r' _. lia.
  - destruct (fire_ui w id I Hoff) as (Hh & _). simpl handle in Hh. rewrite Hh.
    intros r Hr. rewrite onTick_result in Hr. specialize (W r Hr).
    rewrite Hr. unfold onTick.
    destruct (idx (ui w) + 1 >=? JS.length (scenes (data r))) eqn:G; simpl; [lia|].
    rewrite Z.geb_leb in G. apply Z.leb_gt in G. lia.
Qed.

Lemma reachable_wide_range (w : World) : reachable w -> in_wide_range (ui w).
Proof.
  intros [es ->].
  assert (H : forall w, Inv w -> in_wide_range (ui w) -> in_wide_range (ui (run w es))).
  { induction es as [|e es IH]; intros w I W; simpl; [exact W|].
    apply IH; [now apply step_inv | now apply step_wide_range]. }
  apply H; [exact mounted_inv|]. intros r Hr. discriminate Hr.
Qed.

Lemma index_nil {A} (i : Z) : JS.index (@nil A) i = None.
Proof. unfold JS.index. destruct (i <? 0); [reflexivity|]. now destruct (Z.to_nat i). Qed.

(** X10: with an empty sequence installed the controls are not no-ops for the
    cursor: Next moves it to -1 and Prev back to 0, and it never leaves these
    two values.  No scene is current, the stage renders nothing, and no timer
    is ever pending, also after Play. *)
Theorem empty_sequence_cursor (w : World) (r : ResultObj) :
  reachable w ->
  result (ui w) = Some r ->
  scenes (data r) = [] ->
  (idx (ui w) = 0 \/ idx (ui w) = -1)
  /\ idx (ui (step w ClickNext)) = -1
  /\ idx (ui (step w ClickPrev)) = 0
  /\ sceneOf (ui w) = None
  /\ renderPlayer (ui w) = Drawn None
  /\ pending (timers w) = [].
Proof.
  intros Hreach Hr Hempty.
  pose proof (reachable_inv w Hreach) as I.
  pose proof (reachable_wide_range w Hreach r Hr) as W.
  rewrite Hempty in W. simpl in W.
  assert (Hres : hasResult (ui w) = true) by (unfold hasResult; now rewrite Hr).
  assert (Hsc : sceneOf (ui w) = None).
  { unfold sceneOf, currentScene. rewrite Hr, Hempty. apply index_nil. }
  split; [lia|].
  split; [rewrite step_ui by exact Hres; simpl; rewrite Hr, Hempty; simpl; lia|].
  split; [rewrite step_ui by exact Hres; simpl; lia|].
  split; [exact Hsc|].
  split; [unfold renderPlayer; now rewrite Hr, Hsc|].
  destruct (inv_armed w I) as [Hnil | (t & _ & _ & Hcur)]; [exact Hnil|].
  destruct (current_scene_exists _ _ Hcur) as [sc Hsome]. congruence.
Qed.

Lemma empty_sequence_witness :
  let w := run (Sample.showing Edge.empty) [ClickPlay; ClickNext] in
  idx (ui w) = -1
  /\ idx (ui (step w ClickPrev)) = 0
  /\ pending (timers w) = [].
Proof.
  assert (Hreach : reachable (run (Sample.showing Edge.empty) [ClickPlay; ClickNext])).
  { apply reachable_run. exists [ClickGenerate; Settle (Ok Edge.empty)]. reflexivity. }
  destruct (empty_sequence_cursor _ {| ref := 0; data := Edge.empty |} Hreach)
    as (_ & _ & Hprev & _ & _ & Hnil); try (vm_compute; reflexivity).
  split; [vm_compute; reflexivity|]. split; assumption.
Defined.

(** ** Lookups and renderings *)

(** X11: the character lookup returns the first roster entry with the
    requested id, as it stands in the roster, and finds nothing exactly when
    no entry has that id. *)
Theorem findCharacter_first_match (r : Result) (id : string) :
  match findCharacter r id with
  | Some c =>
      exists before after,
        characters r = (before ++ c :: after)%list
        /\ ch_id c = id
        /\ (forall c', In c' before -> ch_id c' <> id)
  | None => forall c, In c (characters r) -> ch_id c <> id
  end.
Proof.
  unfold findCharacter. induction (characters r) as [|c l IH]; simpl.
  - intros c [].
  - destruct (ch_id c =? id)%string eqn:E.
    + exists [], l. apply String.eqb_eq in E.
      split; [reflexivity|]. split; [exact E|]. intros c' [].
    + apply String.eqb_neq in E.
      destruct (find _ l) as [c0|].
      * destruct IH as (before & after & Hl & Hid & Hnot).
        exists (c :: before), after. rewrite Hl. repeat split; auto.
        intros c' [<- | Hin]; auto.
      * intros c' [<- | Hin]; auto.
Qed.

Lemma playerCast_drawn (r : Result) (chs : list Appearance) :
  (forall ch, In ch chs -> findCharacter r (ap_id ch) <> None) ->
  exists cs, playerCast r chs = Drawn cs.
Proof.
  induction chs as [|ch rest IH]; intros H; simpl; [now exists []|].
  unfold playerCard.
  destruct (findCharacter r (ap_id ch)) as [base|] eqn:E;
    [|exfalso; now apply (H ch (or_introl eq_refl))].
  destruct IH as [cs Hcs]; [intros c Hin; apply H; now right|].
  rewrite Hcs. eexists. reflexivity.
Qed.

Lemma playerCast_thrown (r : Result) (chs : list Appearance) :
  playerCast r chs = TypeError ->
  exists ch, In ch chs /\ findCharacter r (ap_id ch) = None.
Proof.
  induction chs as [|c rest IH]; simpl; [discriminate|].
  unfold playerCard.
  destruct (findCharacter r (ap_id c)) as [base|] eqn:E.
  - destruct (playerCast r rest); [discriminate|].
    intros _. destruct (IH eq_refl) as (ch & Hin & Hnone).
    exists ch. auto.
  - intros _. exists c. auto.
Qed.

(** X12: with a scene on the stage, the preview player throws exactly when
    the scene has no transition object or lists a character id that is not
    in the roster; an environment id that is not in the roster never makes it
    throw (the name is left empty). *)
Theorem renderPlayer_throws_exactly_when (u : Ui) (r : ResultObj) (sc : Scene) :
  result u = Some r ->
  sceneOf u = Some sc ->
  (renderPlayer u = TypeError <->
   transition sc = None
   \/ exists ch, In ch (sc_characters sc) /\ findCharacter (data r) (ap_id ch) = None)
  /\ (forall v, renderPlayer u = Drawn (Some v) ->
                pv_environment v
                = option_map env_name (findEnvironment (data r) (environmentId sc))
                /\ List.length (pv_cast v) = List.length (sc_characters sc)).
Proof.
  intros Hr Hsc. unfold renderPlayer. rewrite Hr, Hsc. split.
  - split.
    + destruct (transition sc) as [t|]; [|now left].
      destruct (playerCast (data r) (sc_characters sc)) eqn:E; [discriminate|].
      intros _. right. now apply playerCast_thrown.
    + intros [Hnone | (ch & Hin & Hnone)].
      * now rewrite Hnone.
      * destruct (transition sc); [|reflexivity].
        now rewrite (playerCast_unknown _ _ _ Hin Hnone).
  - intros v. destruct (transition sc) as [t|]; [|discriminate].
    destruct (playerCast (data r) (sc_characters sc)) as [cast|] eqn:E; [|discriminate].
    intros Hv. injection Hv as <-. simpl. split; [reflexivity|].
    clear - E. revert cast E.
    induction (sc_characters sc) as [|c rest IH]; simpl; intros cast E.
    + injection E as <-. reflexivity.
    + destruct (playerCard (data r) c); [|discriminate].
      destruct (playerCast (data r) rest) as [cs|]; [|discriminate].
      injection E as <-. simpl. f_equal. now apply IH.
Qed.

Lemma renderPlayer_throws_witness :
  renderPlayer (ui (Sample.showing Edge.patchy))
  = Drawn (Some {| pv_motion := crossfade 0.8%float;
                   pv_environment := None;
                   pv_transition := None;
                   pv_title := "Scene s2";
                   pv_description := "";
                   pv_cast := [{| pc_name := "Alice"; pc_color := 3;
                                  pc_emotion := Some "calm"; pc_dialogue := None |}] |})
  /\ renderPlayer (ui (step (Sample.showing Edge.patchy) ClickNext)) = TypeError.
Proof.
  split; [vm_compute; reflexivity|].
  assert (Hr : result (ui (step (Sample.showing Edge.patchy) ClickNext))
               = Some {| ref := 0; data := Edge.patchy |}) by (vm_compute; reflexivity).
  assert (Hsc : sceneOf (ui (step (Sample.showing Edge.patchy) ClickNext))
                = Some Edge.bare) by (vm_compute; reflexivity).
  destruct (renderPlayer_throws_exactly_when _ _ _ Hr Hsc) as [[_ Hthrow] _].
  apply Hthrow. left. reflexivity.
Defined.

(** X13: when the preview player renders the cast of a scene, its cards
    agree with the cards of the static scene list for the same scene: same
    order, same names, same emotions and dialogue lines. *)
Theorem player_and_list_cards_agree
  (r : Result) (chs : list Appearance) (cs : list PlayerCard) :
  playerCast r chs = Drawn cs ->
  map lc_name (listCast r chs) = map (fun c => Some (pc_name c)) cs
  /\ map lc_emotion (listCast r chs) = map pc_emotion cs
  /\ map lc_dialogue (listCast r chs) = map pc_dialogue cs.
Proof.
  revert cs. induction chs as [|ch rest IH]; simpl; intros cs H.
  - injection H as <-. repeat split; reflexivity.
  - unfold playerCard in H.
    destruct (findCharacter r (ap_id ch)) as [base|] eqn:E; [|discriminate].
    destruct (playerCast r rest) as [cs'|]; [|discriminate].
    injection H as <-. destruct (IH cs' eq_refl) as (Hn & He & Hd).
    simpl. rewrite Hn, He, Hd. repeat split; reflexivity.
Qed.

Lemma player_and_list_witness :
  map lc_name (listCast Sample.story [Sample.here "c1"; Sample.here "c1"])
  = [Some "Alice"; Some "Alice"].
Proof.
  destruct (player_and_list_cards_agree
              Sample.story [Sample.here "c1"; Sample.here "c1"]
              [{| pc_name := "Alice"; pc_color := 3;
                  pc_emotion := Some "calm"; pc_dialogue := None |};
               {| pc_name := "Alice"; pc_color := 3;
                  pc_emotion := Some "calm"; pc_dialogue := None |}])
    as (Hn & _); [vm_compute; reflexivity|].
  exact Hn.
Defined.

(** X14: the static scene list throws exactly when some scene has no
    transition object; a character id that is not in the roster never makes
    it throw.  When it renders, it shows one card per scene, in the order of
    the response, each with the cast of its scene. *)
Theorem renderSceneList_throws_exactly_when (r : Result) (ss : list Scene) :
  (renderSceneList r ss = TypeError <-> exists s, In s ss /\ transition s = None)
  /\ (forall cards,
        renderSceneList r ss = Drawn cards ->
        map sv_title cards = map title ss
        /\ map sv_cast cards = map (fun s => listCast r (sc_characters s)) ss).
Proof.
  induction ss as [|s rest [IHt IHd]]; simpl.
  - split.
    + split; [discriminate | intros (s & [] & _)].
    + intros cards H. injection H as <-. split; reflexivity.
  - unfold sceneCard. destruct (transition s) as [t|] eqn:E.
    + destruct (renderSceneList r rest) as [cs|].
      * split.
        -- split; [discriminate|].
           intros (s' & [<- | Hin] & Hnone); [congruence|].
           pose proof (proj2 IHt (ex_intro _ s' (conj Hin Hnone))) as F.
           discriminate F.
        -- intros cards H. injection H as <-.
           destruct (IHd cs eq_refl) as [Ht Hc]. simpl. now rewrite Ht, Hc.
      * split.
        -- split; [|reflexivity].
           intros _. destruct (proj1 IHt eq_refl) as (s' & Hin & Hnone).
           exists s'. auto.
        -- discriminate.
    + split.
      * split; [|reflexivity]. intros _. exists s. auto.
      * discriminate.
Qed.

Lemma renderSceneList_witness :
  renderSceneList Edge.patchy (scenes Edge.patchy) = TypeError.
Proof.
  apply (proj1 (renderSceneList_throws_exactly_when Edge.patchy (scenes Edge.patchy))).
  exists Edge.bare. split; [vm_compute; right; left; reflexivity | reflexivity].
Defined.

(** ** The form of the first page inside the second *)

Lemma formOf_step (w : World) (e : Event) :
  formOf (ui (step w e)) = First.step (formOf (ui w)) e.
Proof.
  unfold step. destruct (offered e w) eqn:Hoff.
  - rewrite commit_ui.
    destruct e; simpl in Hoff; simpl handle; simpl ui; try reflexivity.
    + (* Generate *)
      unfold formOf, First.step; simpl.
      destruct (loading (ui w)); [discriminate | reflexivity].
    + (* the request settles *)
      unfold formOf, First.step; simpl. rewrite Hoff.
      unfold generate_settled, First.generate_settled.
      destruct (attempt r); reflexivity.
    + (* a tick *)
      destruct (timerOf id w) as [t|]; [|reflexivity].
      simpl. unfold onTick.
      destruct (seen t); [destruct (_ >=? _)|]; reflexivity.
  - destruct e; simpl in Hoff; try reflexivity; try discriminate.
    + unfold formOf, First.step; simpl.
      destruct (loading (ui w)); [reflexivity | discriminate].
    + unfold formOf, First.step; simpl. now rewrite Hoff.
Qed.

Lemma renders_first (u : Ui) : renders u = true -> First.renders (formOf u) = true.
Proof.
  unfold renders, First.renders, formOf; simpl.
  destruct (result u) as [r|]; simpl; [|reflexivity].
  destruct (renderPlayer u); [|discriminate].
  destruct (renderSceneList (data r) (scenes (data r))); [reflexivity | discriminate].
Qed.

Lemma advances_first (es : list Event) :
  forall w0 w,
    renders (ui w0) = true ->
    advances (Shown w0) es = Shown w ->
    First.advances (First.Shown (formOf (ui w0))) es = First.Shown (formOf (ui w)).
Proof.
  induction es as [|e es IH]; intros w0 w Hr.
  - simpl. intros H. injection H as <-. reflexivity.
  - change (advances (Shown w0) (e :: es))
      with (advances (advance (Shown w0) e) es).
    change (First.advances (First.Shown (formOf (ui w0))) (e :: es))
      with (First.advances (First.advance (First.Shown (formOf (ui w0))) e) es).
    destruct (advance (Shown w0) e) as [w1|] eqn:E;
      [|rewrite advances_gone; discriminate].
    destruct (advance_shown _ _ _ Hr E) as [-> Hr1].
    unfold First.advance. rewrite <- formOf_step, (renders_first _ Hr1).
    now apply IH.
Qed.

(** X15: the player added to the second page does not change the form.  For
    every sequence of events after which the second page is still on screen,
    the first page of the file is on screen too under the same events (it
    ignores the player's buttons and timers), with the same pacing, result,
    loading flag and error.  The converse fails: a response that lists a
    character id missing from the roster is shown by the first page and makes
    the second page go. *)
Theorem second_page_keeps_the_form (es : list Event) (w : World) :
  advances opened es = Shown w ->
  First.advances First.opened es = First.Shown (formOf (ui w))
  /\ advances opened [ClickGenerate; Settle (Ok Sample.stray)] = Gone
  /\ First.advances First.opened [ClickGenerate; Settle (Ok Sample.stray)]
     = First.Shown {| First.pacing := "normal"; First.result := Some Sample.stray;
                      First.loading := false; First.error := "" |}.
Proof.
  intros H. split; [|split; vm_compute; reflexivity].
  apply (advances_first es mounted w); [reflexivity | exact H].
Qed.

Lemma second_page_witness :
  First.advances First.opened
                 [ClickGenerate; Settle (Ok Sample.story); ClickPlay; ClickNext]
  = First.Shown {| First.pacing := "normal"; First.result := Some Sample.story;
                   First.loading := false; First.error := "" |}.
Proof.
  destruct (second_page_keeps_the_form
              [ClickGenerate; Settle (Ok Sample.story); ClickPlay; ClickNext]
              (run (Sample.showing Sample.story) [ClickPlay; ClickNext])) as [Hform _];
    [vm_compute; reflexivity|].
  rewrite Hform. vm_compute. reflexivity.
Defined.
